(** * canvas-flappy-bird: the game state machine and the bird

    A shallow embedding of [class Game] (the orchestrator: state machine,
    frame loop, scoring, levelling, resize) and of [class Bird]
    (src/entities/bird.js), with the properties of the specification
    stated and proved over it.

    Conventions of the embedding.
    - JavaScript numbers that hold coordinates, speeds and durations are
      exact rationals ([Q]); rounding, [NaN] and the infinities of IEEE
      doubles are outside the model.  Counters ([_score], [_level],
      [_highScore]) and [Date.now()] readings are integers ([Z]).
      Inputs that would bring a [NaN], an infinity or a rounded integer
      into the game have no counterpart in the model: the divisor of
      the one division by a configured number, [background.height], is
      a number other than 0 by its type, and a page is launched only on
      a stored high score that [parseInt] reads exactly.
    - A field that is [undefined] until [reset()] assigns it is an
      [option]; reading a property of [undefined] throws [TypeError].
      For the counters [_score] and [_level], [None] is a value that is
      not a number ([undefined], [NaN]): arithmetic on it gives [None]
      and every comparison with it is false, as in JavaScript.
    - Entities are JavaScript objects shared between the scene, the tube
      driver, [_backgrounds] and [_bird]: they live in one [heap] and are
      referred to by their index in it.
    - Drawing, sound and storage writes are recorded in an effect log,
      most recent first. *)

From Stdlib Require Import ZArith QArith Qround Qabs Lqa Lia List Bool String RelationClasses.
Import ListNotations.
Local Open Scope Q_scope.

(** ** Numbers *)

Definition Qltb (a b : Q) : bool := negb (Qle_bool b a).
Definition Qgeb (a b : Q) : bool := Qle_bool b a.

(** ** The states of the game: [Game.STATES] *)

Inductive State : Type := LOADING | IDLE | PLAYING | GAME_OVER.

Definition State_eqb (a b : State) : bool :=
  match a, b with
  | LOADING, LOADING | IDLE, IDLE | PLAYING, PLAYING | GAME_OVER, GAME_OVER => true
  | _, _ => false
  end.

(** ** Entities

    The class of an entity is the constructor of its [extra] part; this
    is what [instanceof] tests. *)

Inductive Extra : Type :=
| BirdX (_fallingSpeed flapSpeed : Q) (flying : bool) (animationTime : Q)
| TubeX (spaceY space : Q)
| BackgroundX (initialX : Q).

Record Entity : Type := mkEntity {
  x : Q;
  y : Q;
  width : Q;
  height : Q;
  speed : Q;
  zIndex : Z;
  collidable : bool;
  extra : Extra
}.

Definition isBird (e : Entity) : bool :=
  match extra e with BirdX _ _ _ _ => true | _ => false end.
Definition isTube (e : Entity) : bool :=
  match extra e with TubeX _ _ => true | _ => false end.
Definition isBackground (e : Entity) : bool :=
  match extra e with BackgroundX _ => true | _ => false end.

Definition set_x (v : Q) (e : Entity) : Entity :=
  mkEntity v (y e) (width e) (height e) (speed e) (zIndex e) (collidable e) (extra e).
Definition set_y (v : Q) (e : Entity) : Entity :=
  mkEntity (x e) v (width e) (height e) (speed e) (zIndex e) (collidable e) (extra e).
Definition set_speed (v : Q) (e : Entity) : Entity :=
  mkEntity (x e) (y e) (width e) (height e) v (zIndex e) (collidable e) (extra e).
Definition set_extra (v : Extra) (e : Entity) : Entity :=
  mkEntity (x e) (y e) (width e) (height e) (speed e) (zIndex e) (collidable e) v.

(** The vertical velocity of an entity that has one. *)
Definition fallingSpeed (e : Entity) : option Q :=
  match extra e with BirdX v _ _ _ => Some v | _ => None end.

(** ** Configuration: the options of [Config] that [Game] reads *)

(** A number other than 0: a sign and a fraction of two positive
    integers. *)
Record NonZero : Type := mkNonZero {
  negative : bool;
  numerator : positive;
  denominator : positive
}.

Definition nonzero (n : NonZero) : Q :=
  (if negative n then Z.neg (numerator n) else Z.pos (numerator n)) # denominator n.

(** [background.height], the height of the background sprite, is the
    divisor of the aspect ratio in [_generateBackgrounds]: the
    configurations of the model have a height other than 0, those with
    height 0, whose aspect ratio is [Infinity] or [NaN], are outside it. *)
Record Config : Type := mkConfig {
  gravitation : Q;
  canvas_width : Q;
  canvas_height : Q;
  bird_startX : Q;
  bird_width : Q;
  bird_height : Q;
  bird_flapSpeed : Q;
  bird_animationSpeed : Q;
  tubes_speed : Q;
  tubes_width : Q;
  tubes_borderOffset : Q;
  tubes_spaceMin : Q;
  tubes_spaceMax : Q;
  tubes_minDistance : Q;
  tubes_maxDistance : Q;
  background_width : Q;
  background_sprite_height : NonZero;
  background_speed : Q;
  fps : Q;
  levelUpAcceleration : Q;
  texts_loading : string;
  texts_idle : string;
  texts_gameOver : string
}.

(** [this._config.background.height]. *)
Definition background_height (cfg : Config) : Q := nonzero (background_sprite_height cfg).

(** ** Scene, tube driver, canvas *)

Record Scene : Type := mkScene {
  scene_width : Q;
  scene_height : Q;
  entities : list nat
}.

Record TubesDriver : Type := mkTubesDriver {
  td_speed : Q;
  td_width : Q;
  td_borderOffset : Q;
  td_spaceMin : Q;
  td_spaceMax : Q;
  td_minDistance : Q;
  td_maxDistance : Q;
  _tubes : list nat
}.

Record Canvas : Type := mkCanvas {
  clientWidth : Q;
  clientHeight : Q;
  cv_width : Q;
  cv_height : Q
}.

(** ** Effects on the collaborators *)

Inductive Effect : Type :=
| Clear
| ResizeSurface (w h : Q)
| DrawCenteredText (text : string)
| DrawWithScores (text : string) (score : option Z) (highScore : Z)
| DrawScene
| DrawScoreLabel (score : option Z)
| Play (sound : string)
| Save (key : string) (value : Z).

(** One pair that the tube driver decides to spawn: the distance to the
    previous pair and the vertical gap, as drawn from [Math.random]. *)
Record Spawn : Type := mkSpawn {
  sp_distance : Q;
  sp_spaceY : Q;
  sp_space : Q
}.

(** ** The game object together with the world it acts on

    [heap], [effects], [scheduled], [date_now] and [spawn_oracle] are not
    fields of [Game]: they stand for the entity objects, the calls made
    on the draw engine, the sounds and the storage, the animation-frame
    callbacks that were requested and have not run yet, the clock read
    by [Date.now()], and the random choices of the tube driver.  The
    clock stands still while a handler runs: every [Date.now()] in it
    reads the time at which the handler was entered. *)

Record Game : Type := mkGame {
  _config : Config;
  _storage : list (string * Z);
  _lastUpdate : option Z;
  _currentState : State;
  _backgrounds : list nat;
  _canvas : Canvas;
  _physicsEngine : option Q;
  _scene : option Scene;
  _tubesDriver : option TubesDriver;
  _bird : option nat;
  _score : option Z;
  _level : option Z;
  _highScore : Z;
  heap : list Entity;
  effects : list Effect;
  scheduled : nat;
  date_now : Z;
  spawn_oracle : list (list Spawn)
}.

Definition set_storage v g := mkGame (_config g) v (_lastUpdate g) (_currentState g)
  (_backgrounds g) (_canvas g) (_physicsEngine g) (_scene g) (_tubesDriver g) (_bird g)
  (_score g) (_level g) (_highScore g) (heap g) (effects g) (scheduled g) (date_now g)
  (spawn_oracle g).
Definition set_lastUpdate v g := mkGame (_config g) (_storage g) v (_currentState g)
  (_backgrounds g) (_canvas g) (_physicsEngine g) (_scene g) (_tubesDriver g) (_bird g)
  (_score g) (_level g) (_highScore g) (heap g) (effects g) (scheduled g) (date_now g)
  (spawn_oracle g).
Definition set_currentState v g := mkGame (_config g) (_storage g) (_lastUpdate g) v
  (_backgrounds g) (_canvas g) (_physicsEngine g) (_scene g) (_tubesDriver g) (_bird g)
  (_score g) (_level g) (_highScore g) (heap g) (effects g) (scheduled g) (date_now g)
  (spawn_oracle g).
Definition set_backgrounds v g := mkGame (_config g) (_storage g) (_lastUpdate g)
  (_currentState g) v (_canvas g) (_physicsEngine g) (_scene g) (_tubesDriver g) (_bird g)
  (_score g) (_level g) (_highScore g) (heap g) (effects g) (scheduled g) (date_now g)
  (spawn_oracle g).
Definition set_canvas v g := mkGame (_config g) (_storage g) (_lastUpdate g)
  (_currentState g) (_backgrounds g) v (_physicsEngine g) (_scene g) (_tubesDriver g)
  (_bird g) (_score g) (_level g) (_highScore g) (heap g) (effects g) (scheduled g)
  (date_now g) (spawn_oracle g).
Definition set_physicsEngine v g := mkGame (_config g) (_storage g) (_lastUpdate g)
  (_currentState g) (_backgrounds g) (_canvas g) v (_scene g) (_tubesDriver g) (_bird g)
  (_score g) (_level g) (_highScore g) (heap g) (effects g) (scheduled g) (date_now g)
  (spawn_oracle g).
Definition set_scene v g := mkGame (_config g) (_storage g) (_lastUpdate g)
  (_currentState g) (_backgrounds g) (_canvas g) (_physicsEngine g) v (_tubesDriver g)
  (_bird g) (_score g) (_level g) (_highScore g) (heap g) (effects g) (scheduled g)
  (date_now g) (spawn_oracle g).
Definition set_tubesDriver v g := mkGame (_config g) (_storage g) (_lastUpdate g)
  (_currentState g) (_backgrounds g) (_canvas g) (_physicsEngine g) (_scene g) v (_bird g)
  (_score g) (_level g) (_highScore g) (heap g) (effects g) (scheduled g) (date_now g)
  (spawn_oracle g).
Definition set_bird v g := mkGame (_config g) (_storage g) (_lastUpdate g)
  (_currentState g) (_backgrounds g) (_canvas g) (_physicsEngine g) (_scene g)
  (_tubesDriver g) v (_score g) (_level g) (_highScore g) (heap g) (effects g)
  (scheduled g) (date_now g) (spawn_oracle g).
Definition set_score v g := mkGame (_config g) (_storage g) (_lastUpdate g)
  (_currentState g) (_backgrounds g) (_canvas g) (_physicsEngine g) (_scene g)
  (_tubesDriver g) (_bird g) v (_level g) (_highScore g) (heap g) (effects g)
  (scheduled g) (date_now g) (spawn_oracle g).
Definition set_level v g := mkGame (_config g) (_storage g) (_lastUpdate g)
  (_currentState g) (_backgrounds g) (_canvas g) (_physicsEngine g) (_scene g)
  (_tubesDriver g) (_bird g) (_score g) v (_highScore g) (heap g) (effects g)
  (scheduled g) (date_now g) (spawn_oracle g).
Definition set_highScore v g := mkGame (_config g) (_storage g) (_lastUpdate g)
  (_currentState g) (_backgrounds g) (_canvas g) (_physicsEngine g) (_scene g)
  (_tubesDriver g) (_bird g) (_score g) (_level g) v (heap g) (effects g)
  (scheduled g) (date_now g) (spawn_oracle g).
Definition set_heap v g := mkGame (_config g) (_storage g) (_lastUpdate g)
  (_currentState g) (_backgrounds g) (_canvas g) (_physicsEngine g) (_scene g)
  (_tubesDriver g) (_bird g) (_score g) (_level g) (_highScore g) v (effects g)
  (scheduled g) (date_now g) (spawn_oracle g).
Definition set_effects v g := mkGame (_config g) (_storage g) (_lastUpdate g)
  (_currentState g) (_backgrounds g) (_canvas g) (_physicsEngine g) (_scene g)
  (_tubesDriver g) (_bird g) (_score g) (_level g) (_highScore g) (heap g) v
  (scheduled g) (date_now g) (spawn_oracle g).
Definition set_scheduled v g := mkGame (_config g) (_storage g) (_lastUpdate g)
  (_currentState g) (_backgrounds g) (_canvas g) (_physicsEngine g) (_scene g)
  (_tubesDriver g) (_bird g) (_score g) (_level g) (_highScore g) (heap g) (effects g)
  v (date_now g) (spawn_oracle g).
Definition set_date_now v g := mkGame (_config g) (_storage g) (_lastUpdate g)
  (_currentState g) (_backgrounds g) (_canvas g) (_physicsEngine g) (_scene g)
  (_tubesDriver g) (_bird g) (_score g) (_level g) (_highScore g) (heap g) (effects g)
  (scheduled g) v (spawn_oracle g).
Definition set_spawn_oracle v g := mkGame (_config g) (_storage g) (_lastUpdate g)
  (_currentState g) (_backgrounds g) (_canvas g) (_physicsEngine g) (_scene g)
  (_tubesDriver g) (_bird g) (_score g) (_level g) (_highScore g) (heap g) (effects g)
  (scheduled g) (date_now g) v.

(** ** Running a method: it returns, throws, or never returns

    A thrown exception leaves the mutations made before it in place, so
    both [Ok] and [Throw] carry the game. *)

Inductive Error : Type := TypeError.

Inductive Outcome (A : Type) : Type :=
| Ok (a : A) (g : Game)
| Throw (e : Error) (g : Game)
| Hang.
Arguments Ok {A} a g.
Arguments Throw {A} e g.
Arguments Hang {A}.

Definition M (A : Type) : Type := Game -> Outcome A.

Definition ret {A} (a : A) : M A := fun g => Ok a g.
Definition bind {A B} (m : M A) (k : A -> M B) : M B :=
  fun g => match m g with
           | Ok a g' => k a g'
           | Throw e g' => Throw e g'
           | Hang => Hang
           end.
Definition throw {A} (e : Error) : M A := fun g => Throw e g.
Definition hang {A} : M A := fun _ => Hang.
Definition get : M Game := fun g => Ok g g.
Definition modify (f : Game -> Game) : M unit := fun g => Ok tt (f g).

Notation "x <- m ;; k" := (bind m (fun x => k))
  (at level 61, m at next level, right associativity).
Notation "m ;; k" := (bind m (fun _ => k))
  (at level 61, right associativity).

Definition when (b : bool) (m : M unit) : M unit := if b then m else ret tt.

(** [xs.forEach(f)] over a snapshot of the array. *)
Fixpoint forEach {A} (f : A -> M unit) (xs : list A) : M unit :=
  match xs with
  | [] => ret tt
  | a :: rest => f a ;; forEach f rest
  end.

(** Reading a property of a value that may be [undefined]. *)
Definition defined {A} (o : option A) : M A :=
  match o with Some a => ret a | None => throw TypeError end.

(** The game after a method ran, whatever way it ended. *)
Definition after {A} (o : Outcome A) : option Game :=
  match o with Ok _ g => Some g | Throw _ g => Some g | Hang => None end.

Definition emit (e : Effect) : M unit := modify (fun g => set_effects (e :: effects g) g).

(** ** The collaborators of [Game] and [Bird]

    Their classes live in other files of the repository; each is
    modelled from what the specification says about it. *)

(** *** LocalStorage *)

(** Modelled from the spec: [LocalStorage], the persistent key-value
    storage with [load(key)] and a synchronous [save(key, value)].  A
    stored value is the integer whose decimal digits are stored. *)
Fixpoint storage_load (key : string) (s : list (string * Z)) : option Z :=
  match s with
  | [] => None
  | (k, v) :: rest => if String.eqb k key then Some v else storage_load key rest
  end.

(** Modelled from the spec: what [LocalStorage.save(key, value)] makes
    of the stored pairs: the value under [key] is replaced. *)
Definition storage_save (key : string) (v : Z) (s : list (string * Z)) :=
  (key, v) :: filter (fun kv => negb (String.eqb (fst kv) key)) s.

(** Modelled from the spec: [LocalStorage.save(key, value)], a
    synchronous write, recorded among the effects. *)
Definition LocalStorage_save (key : string) (v : Z) : M unit :=
  emit (Save key v) ;;
  modify (fun g => set_storage (storage_save key v (_storage g)) g).

(** *** The heap of entity objects *)

Fixpoint list_update {A} (i : nat) (f : A -> A) (l : list A) : list A :=
  match l, i with
  | [], _ => []
  | a :: rest, O => f a :: rest
  | a :: rest, S j => a :: list_update j f rest
  end.

Definition entity (id : nat) : M Entity :=
  g <- get ;; defined (nth_error (heap g) id).

Definition update_entity (id : nat) (f : Entity -> Entity) : M unit :=
  modify (fun g => set_heap (list_update id f (heap g)) g).

Definition new_entity (e : Entity) : M nat :=
  g <- get ;;
  modify (set_heap (heap g ++ [e])) ;;
  ret (List.length (heap g)).

(** *** Scene *)

Definition scene : M Scene := g <- get ;; defined (_scene g).

Definition modify_scene (f : Scene -> Scene) : M unit :=
  sc <- scene ;; modify (set_scene (Some (f sc))).

(** Modelled from the spec: [Scene], which owns the live entity
    collection and the viewport dimensions.  An entity joins the scene it
    is constructed with; [delete()] removes it from the live set. *)
Definition Scene_add (id : nat) : M unit :=
  modify_scene (fun sc => mkScene (scene_width sc) (scene_height sc) (entities sc ++ [id])).

(** Modelled from the spec: [Entity.delete()]: the entity leaves the
    live set of the scene; an entity of an earlier scene is in no live
    set any more. *)
Definition Entity_delete (id : nat) : M unit :=
  modify (fun g =>
    match _scene g with
    | Some sc => set_scene (Some (mkScene (scene_width sc) (scene_height sc)
                   (filter (fun i => negb (Nat.eqb i id)) (entities sc)))) g
    | None => g
    end).

(** Modelled from the spec: [Scene.resize(width, height)] updates the
    viewport dimensions. *)
Definition Scene_resize (w h : Q) : M unit :=
  modify_scene (fun sc => mkScene w h (entities sc)).

(** Modelled from the spec: [Scene.getEntities()], the live entities. *)
Definition Scene_getEntities : M (list nat) :=
  sc <- scene ;; ret (entities sc).

(** Modelled from the spec: [Scene.draw()] renders the entities on the
    draw engine. *)
Definition Scene_draw : M unit := _ <- scene ;; emit DrawScene.

(** *** Entity classes *)

(** Modelled from the spec: [Background], a tile that scrolls at its
    horizontal speed and never collides; it remembers the [x] it was
    created at as [initialX]. *)
Definition new_Background (x0 y0 w h s : Q) : M nat :=
  id <- new_entity (mkEntity x0 y0 w h s 0%Z false (BackgroundX x0)) ;;
  Scene_add id ;;
  ret id.

(** Modelled from the spec: [Tube], an obstacle pair: one collidable
    unit as wide as configured and as high as the scene, with a passable
    gap of height [space] starting at [spaceY]. *)
Definition new_Tube (x0 w h s spaceY space : Q) : M nat :=
  id <- new_entity (mkEntity x0 0 w h s 1%Z true (TubeX spaceY space)) ;;
  Scene_add id ;;
  ret id.

(** [new Bird(params)]: [zIndex = 2], [collidable = true], [flying = true]
    and the flap speed come from bird.js; the position and size from
    [params].  Modelled from the spec: the base classes, which are not in
    the sources, start the fall at speed 0 and the animation at time 0. *)
Definition new_Bird (x0 y0 w h flap : Q) : M nat :=
  id <- new_entity (mkEntity x0 y0 w h 0 2%Z true (BirdX 0 flap true 0)) ;;
  Scene_add id ;;
  ret id.

(** Modelled from the spec: the [update(delta)] of [Tube] and
    [Background]: they move solely by their own horizontal speed. *)
Definition scroll (delta : Q) (e : Entity) : Entity :=
  set_x (x e - speed e * delta) e.

(** Modelled from the spec: [AnimatedEntity.update], the part of
    [Bird.update] inherited from its base class: it advances the sprite
    animation with the elapsed time. *)
Definition animate (speed_ delta : Q) (e : Entity) : Entity :=
  match extra e with
  | BirdX v f fl t => set_extra (BirdX v f fl (t + speed_ * delta)) e
  | _ => e
  end.

(** Modelled from the spec: [super.update(delta)] of [Bird]. *)
Definition AnimatedEntity_update (id : nat) (delta : Q) : M unit :=
  g <- get ;;
  update_entity id (animate (bird_animationSpeed (_config g)) delta).

(** *** PhysicsEngine *)

(** Modelled from the spec: [PhysicsEngine.update(entity, delta)],
    semi-implicit Euler on an entity that exposes a fall velocity:
    [velocity += gravitation * delta; y += velocity * delta]. *)
Definition integrate (gravity delta : Q) (e : Entity) : Entity :=
  match extra e with
  | BirdX v f true t =>
      let v' := v + gravity * delta in
      set_y (y e + v' * delta) (set_extra (BirdX v' f true t) e)
  | _ => e
  end.

(** Modelled from the spec: [this._physicsEngine.update(this, delta)],
    with the gravitation the engine was constructed with. *)
Definition PhysicsEngine_update (id : nat) (delta : Q) : M unit :=
  g <- get ;;
  gravity <- defined (_physicsEngine g) ;;
  update_entity id (integrate gravity delta).

(** *** TubesDriver *)

Definition driver : M TubesDriver := g <- get ;; defined (_tubesDriver g).

Definition set_tubes (l : list nat) (td : TubesDriver) : TubesDriver :=
  mkTubesDriver (td_speed td) (td_width td) (td_borderOffset td) (td_spaceMin td)
    (td_spaceMax td) (td_minDistance td) (td_maxDistance td) l.

Definition set_td_speed (s : Q) (td : TubesDriver) : TubesDriver :=
  mkTubesDriver s (td_width td) (td_borderOffset td) (td_spaceMin td)
    (td_spaceMax td) (td_minDistance td) (td_maxDistance td) (_tubes td).

Definition modify_driver (f : TubesDriver -> TubesDriver) : M unit :=
  td <- driver ;; modify (set_tubesDriver (Some (f td))).

(** Modelled from the spec: the spawn step of [TubesDriver]: a new pair
    is placed at [previousPair.x + previousPair.width + distance]; the
    first pair of a session is measured from the right edge of the
    viewport. *)
Definition TubesDriver_spawn (sp : Spawn) : M unit :=
  td <- driver ;;
  sc <- scene ;;
  prev <- match last (map Some (_tubes td)) None with
          | Some id => e <- entity id ;; ret (x e + width e)
          | None => ret (scene_width sc)
          end ;;
  id <- new_Tube (prev + sp_distance sp) (td_width td) (scene_height sc) (td_speed td)
          (sp_spaceY sp) (sp_space sp) ;;
  modify_driver (fun td => set_tubes (_tubes td ++ [id]) td).

(** Modelled from the spec: the recycling step of [TubesDriver]: a pair
    whose right edge has scrolled past [x = 0] leaves the live sequence. *)
Definition TubesDriver_recycle (id : nat) : M unit :=
  e <- entity id ;;
  when (Qltb (x e + width e) 0)
    (Entity_delete id ;;
     modify_driver (fun td => set_tubes (filter (fun i => negb (Nat.eqb i id)) (_tubes td)) td)).

(** Modelled from the spec: [TubesDriver.update()]: recycle, then spawn.
    How many pairs one call spawns, and with which random distance and
    gap, is read from [spawn_oracle], one entry per call. *)
Definition TubesDriver_update : M unit :=
  td <- driver ;;
  forEach TubesDriver_recycle (_tubes td) ;;
  g <- get ;;
  match spawn_oracle g with
  | [] => ret tt
  | sps :: rest => modify (set_spawn_oracle rest) ;; forEach TubesDriver_spawn sps
  end.

(** Modelled from the spec: [TubesDriver.getTubes({from, to})]: the alive
    pairs whose horizontal span [x, x + width] meets [from, to], in the
    order of the live sequence (ascending [x]). *)
Definition spans (from to : Q) (e : Entity) : bool :=
  Qle_bool (x e) to && Qle_bool from (x e + width e).

(** Modelled from the spec: the test of [getTubes] on the pair [id]. *)
Definition spanning (h : list Entity) (from to : Q) (id : nat) : bool :=
  match nth_error h id with
  | Some e => spans from to e
  | None => false
  end.

(** Modelled from the spec: [TubesDriver.getTubes({from, to})]. *)
Definition TubesDriver_getTubes (from to : Q) : M (list nat) :=
  td <- driver ;;
  g <- get ;;
  ret (filter (spanning (heap g) from to) (_tubes td)).

(** [entity.speed += d]. *)
Definition accelerate (d : Q) (e : Entity) : Entity := set_speed (speed e + d) e.

(** Modelled from the spec: [TubesDriver.increaseSpeed(delta)]: it adds
    to every alive pair's horizontal speed and to the driver's speed
    used for future spawns. *)
Definition TubesDriver_increaseSpeed (d : Q) : M unit :=
  td <- driver ;;
  forEach (fun id => update_entity id (accelerate d)) (_tubes td) ;;
  modify_driver (fun td => set_td_speed (td_speed td + d) td).

(** *** RectCollisionEngine *)

Definition Rect : Type := (Q * Q * Q * Q)%type.

(** Modelled from the spec: the test of [RectCollisionEngine]: inclusive
    overlap of [[x, x+w] x [y, y+h]] rectangles on both axes. *)
Definition overlap (a b : Rect) : bool :=
  let '(ax, ay, aw, ah) := a in
  let '(bx, by_, bw, bh) := b in
  Qle_bool ax (bx + bw) && Qle_bool bx (ax + aw) &&
  Qle_bool ay (by_ + bh) && Qle_bool by_ (ay + ah).

(** Modelled from the spec: the rectangles an entity collides with: its
    bounding box, and for an obstacle pair its two barrier segments
    above and below the gap. *)
Definition rects (e : Entity) : list Rect :=
  match extra e with
  | TubeX sy s => [ (x e, y e, width e, sy - y e);
                    (x e, sy + s, width e, y e + height e - (sy + s)) ]
  | _ => [ (x e, y e, width e, height e) ]
  end.

(** Modelled from the spec: two entities intersect when one rectangle
    of the one overlaps one of the other. *)
Definition intersects (a b : Entity) : bool :=
  existsb (fun ra => existsb (overlap ra) (rects b)) (rects a).

Fixpoint pairs {A} (l : list A) : list (A * A) :=
  match l with
  | [] => []
  | a :: rest => map (pair a) rest ++ pairs rest
  end.

(** ** [Game._changeState] and [Game.gameOver]

    [_changeState(PLAYING)] runs [_loop()], and [_loop()] reaches
    [gameOver()], that is [_changeState(GAME_OVER)], through the bird.
    The cycle is cut by giving [_changeState] its [PLAYING] handler as an
    argument: the [GAME_OVER] entry never looks at it
    ([gameOver_is_changeState] below). *)

Local Open Scope string_scope.

Fixpoint lookup_state {A} (s : State) (table : list (State * A)) : option A :=
  match table with
  | [] => None
  | (k, a) :: rest => if State_eqb k s then Some a else lookup_state s rest
  end.

Definition drawWithScores (text : Config -> string) : M unit :=
  g <- get ;;
  emit (DrawWithScores (text (_config g)) (_score g) (_highScore g)).

Definition stateChangeHandlersMap (loop : M unit) : list (State * M unit) :=
  [ (PLAYING, loop);
    (LOADING, g <- get ;; emit (DrawCenteredText (texts_loading (_config g))));
    (IDLE, drawWithScores texts_idle);
    (GAME_OVER, drawWithScores texts_gameOver) ].

Definition _changeState_with (loop : M unit) (state : State) : M unit :=
  emit Clear ;;
  modify (set_currentState state) ;;
  handler <- defined (lookup_state state (stateChangeHandlersMap loop)) ;;
  handler.

Definition gameOver : M unit := _changeState_with (ret tt) GAME_OVER.

(** ** [class Bird] (src/entities/bird.js) *)

Definition Bird_update (this : nat) (delta : Q) : M unit :=
  AnimatedEntity_update this delta ;;
  PhysicsEngine_update this delta ;;
  e <- entity this ;;
  when (Qltb (y e) 0) (update_entity this (set_y 0)) ;;
  e <- entity this ;;
  sc <- scene ;;
  when (Qgeb (y e + height e) (scene_height sc))
    (emit (Play "dieSound") ;; gameOver).

(** [super.collide(entity)] is the base class's: modelled from the spec,
    it takes no action. *)
Definition Bird_collide (this : nat) (other : Entity) : M unit :=
  when (isTube other) (emit (Play "hitSound") ;; gameOver).

Definition flap (e : Entity) : Entity :=
  match extra e with
  | BirdX _ f fl t => set_extra (BirdX (- f) f fl t) e
  | _ => e
  end.

Definition Bird_flap (this : nat) : M unit :=
  update_entity this flap ;;
  emit (Play "flapSound").

(** ** Dispatch of [update] and [collide] on the class of the entity *)

(** Modelled from the spec: [entity.update(delta)], which is
    [Bird.update] for the bird and the scroll for tubes and tiles. *)
Definition Entity_update (id : nat) (delta : Q) : M unit :=
  e <- entity id ;;
  if isBird e then Bird_update id delta else update_entity id (scroll delta).

(** Modelled from the spec: [entity.collide(other)], which is
    [Bird.collide] for the bird; tubes and tiles take no action. *)
Definition Entity_collide (id : nat) (other : Entity) : M unit :=
  e <- entity id ;;
  if isBird e then Bird_collide id other else ret tt.

(** Modelled from the spec: [RectCollisionEngine]: every pair of
    currently collidable entities is tested, and on intersection the
    [collide] of both is invoked. *)
Definition check_pair (p : nat * nat) : M unit :=
  a <- entity (fst p) ;;
  b <- entity (snd p) ;;
  when (collidable a && collidable b && intersects a b)
    (Entity_collide (fst p) b ;; Entity_collide (snd p) a).

(** Modelled from the spec: [Scene.update(delta)]: [update(delta)] once
    per live entity, then the collision pass. *)
Definition Scene_update (delta : Q) : M unit :=
  ids <- Scene_getEntities ;;
  forEach (fun id => Entity_update id delta) ids ;;
  ids <- Scene_getEntities ;;
  forEach check_pair (pairs ids).

(** ** [class Game]: scoring and levelling *)

Definition _increaseLevel : M unit :=
  modify (fun g => set_level (option_map (fun l => (l + 1)%Z) (_level g)) g) ;;
  ids <- Scene_getEntities ;;
  g <- get ;;
  let moving id := match nth_error (heap g) id with
                   | Some e => isTube e || isBackground e
                   | None => false
                   end in
  forEach (fun id => update_entity id (accelerate (levelUpAcceleration (_config g))))
    (filter moving ids) ;;
  TubesDriver_increaseSpeed (levelUpAcceleration (_config g)).

(** [(speed + levelUpAcceleration * level) * delta]; not a number while
    [_level] is [undefined]. *)
Definition threshold (g : Game) (delta : Q) : option Q :=
  option_map (fun l => (tubes_speed (_config g)
                        + levelUpAcceleration (_config g) * inject_Z l) * delta)
    (_level g).

Definition crossing (tubeCenter birdCenter : Q) (th : option Q) : bool :=
  match th with
  | Some t => Qgeb (tubeCenter + t / 2) birdCenter && Qle_bool (tubeCenter - t / 2) birdCenter
  | None => false
  end.

Definition levelReached (score level : option Z) : bool :=
  match score, level with
  | Some s, Some l => (s >=? 10 * (l + 1))%Z
  | _, _ => false
  end.

(** The body of the [if] in [_updateScore]: one point, the point sound,
    and the level test. *)
Definition scorePoint : M unit :=
  modify (fun g => set_score (option_map Z.succ (_score g)) g) ;;
  emit (Play "pointSound") ;;
  g <- get ;;
  when (levelReached (_score g) (_level g)) _increaseLevel.

Definition _updateScore (delta : Q) : M unit :=
  g <- get ;;
  b <- defined (_bird g) ;;
  bird <- entity b ;;
  let birdCenter := x bird + width bird / 2 in
  tubes <- TubesDriver_getTubes birdCenter birdCenter ;;
  match tubes with
  | [] => ret tt
  | t :: _ =>
      crossingTube <- entity t ;;
      let tubeCenter := x crossingTube + width crossingTube / 2 in
      g <- get ;;
      when (crossing tubeCenter birdCenter (threshold g delta))
        (modify (fun g => set_score (option_map Z.succ (_score g)) g) ;;
         emit (Play "pointSound") ;;
         g <- get ;;
         when (levelReached (_score g) (_level g)) _increaseLevel)
  end.

(** [this._score > this._highScore] is false while [_score] is not a
    number. *)
Definition _update (delta : Q) : M unit :=
  TubesDriver_update ;;
  Scene_update delta ;;
  _updateScore delta ;;
  g <- get ;;
  match _score g with
  | Some s =>
      when (s >? _highScore g)%Z
        (modify (set_highScore s) ;;
         LocalStorage_save "highScore" s)
  | None => ret tt
  end.

(** ** [class Game]: the frame loop *)

Definition _draw : M unit :=
  emit Clear ;;
  Scene_draw ;;
  g <- get ;;
  emit (DrawScoreLabel (_score g)).

(** [requestAnimationFrame(debounce(this._loop.bind(this), 1000 / fps))]:
    one more run of [_loop] is pending. *)
Definition requestAnimationFrame : M unit :=
  modify (fun g => set_scheduled (S (scheduled g)) g).

(** [(now - this._lastUpdate) / 1000.0]; a [null] timestamp counts as 0. *)
Definition seconds_since (lastUpdate : option Z) (now : Z) : Q :=
  inject_Z (now - match lastUpdate with Some t => t | None => 0 end) / 1000.

Definition _loop : M unit :=
  g <- get ;;
  let now := date_now g in
  let delta := seconds_since (_lastUpdate g) now in
  _update delta ;;
  g <- get ;;
  when (State_eqb (_currentState g) PLAYING)
    (_draw ;;
     modify (set_lastUpdate (Some now)) ;;
     requestAnimationFrame).

Definition _changeState (state : State) : M unit := _changeState_with _loop state.

(** ** [class Game]: backgrounds, resize, reset, start *)

Definition initialX (e : Entity) : Q :=
  match extra e with BackgroundX i => i | _ => 0 end.

(** [this._scene.height * backgroundAspectRatio], where the ratio is
    [background.width / background.height]; the divisor is not 0. *)
Definition tileWidth (cfg : Config) (sc : Scene) : Q :=
  scene_height sc * (background_width cfg / background_height cfg).

(** The [while] loop of [_generateBackgrounds]; [fuel] bounds the number
    of tiles, and a loop that is still running when it is used up is
    counted as one that never returns. *)
Fixpoint generate (fuel : nat) (lastBackground : option nat) : M unit :=
  sc <- scene ;;
  continue <- match lastBackground with
              | None => ret true
              | Some l => e <- entity l ;; ret (Qltb (initialX e) (scene_width sc))
              end ;;
  if continue : bool then
    match fuel with
    | O => hang
    | S fuel' =>
        x0 <- match lastBackground with
              | None => ret 0
              | Some l => e <- entity l ;; ret (x e + width e)
              end ;;
        g <- get ;;
        background <- new_Background x0 0 (tileWidth (_config g) sc) (scene_height sc)
                        (background_speed (_config g)) ;;
        modify (fun g => set_backgrounds (_backgrounds g ++ [background]) g) ;;
        generate fuel' (Some background)
    end
  else ret tt.

(** Tiles of positive width [w] reach the scene width [W] after
    [ceiling (W / w)] steps; with [w <= 0 < W] the loop never ends, and
    with [W <= 0] it ends after the first tile. *)
Definition tiles_needed (w W : Q) : nat :=
  if Qltb 0 w then S (Z.to_nat (Qceiling (W / w))) else 1.

Definition _generateBackgrounds : M unit :=
  g <- get ;;
  forEach Entity_delete (_backgrounds g) ;;
  sc <- scene ;;
  generate (tiles_needed (tileWidth (_config g) sc) (scene_width sc)) None.

Definition _resize : M unit :=
  g <- get ;;
  let width := clientWidth (_canvas g) in
  let height := clientHeight (_canvas g) in
  modify (set_canvas (mkCanvas width height width height)) ;;
  Scene_resize width height ;;
  emit (ResizeSurface width height) ;;
  _generateBackgrounds ;;
  g <- get ;;
  _changeState (_currentState g).

Definition _configurePhysicsEngine : M unit :=
  modify (fun g => set_physicsEngine (Some (gravitation (_config g))) g).

(** [RectCollisionEngine] has no state of its own. *)
Definition _configureCollisionEngine : M unit := ret tt.

Definition _configureScene : M unit :=
  modify (fun g => set_scene
    (Some (mkScene (canvas_width (_config g)) (canvas_height (_config g)) [])) g).

Definition _createEntities : M unit :=
  modify (set_backgrounds []) ;;
  _generateBackgrounds ;;
  g <- get ;;
  let cfg := _config g in
  modify (set_tubesDriver (Some (mkTubesDriver (tubes_speed cfg) (tubes_width cfg)
    (tubes_borderOffset cfg) (tubes_spaceMin cfg) (tubes_spaceMax cfg)
    (tubes_minDistance cfg) (tubes_maxDistance cfg) []))) ;;
  sc <- scene ;;
  b <- new_Bird (bird_startX cfg) (scene_height sc / 2 - bird_height cfg / 2)
         (bird_width cfg) (bird_height cfg) (bird_flapSpeed cfg) ;;
  modify (set_bird (Some b)).

Definition reset : M unit :=
  _changeState IDLE ;;
  modify (set_score (Some 0%Z)) ;;
  modify (set_level (Some 0%Z)) ;;
  _configurePhysicsEngine ;;
  _configureCollisionEngine ;;
  _configureScene ;;
  _resize ;;
  _createEntities.

Definition start : M unit :=
  reset ;;
  emit (Play "swooshingSound") ;;
  g <- get ;;
  modify (set_lastUpdate (Some (date_now g))) ;;
  _changeState PLAYING.

(** ** [class Game]: the primary action *)

Definition flapBird : M unit :=
  g <- get ;; b <- defined (_bird g) ;; Bird_flap b.

Definition actionByStateMap : list (State * M unit) :=
  [ (LOADING, ret tt);
    (IDLE, start);
    (PLAYING, flapBird);
    (GAME_OVER, start) ].

Definition _handleAction : M unit :=
  g <- get ;;
  action <- defined (lookup_state (_currentState g) actionByStateMap) ;;
  action.

(** ** Start-up and the events the page delivers

    [new Game()] followed by the synchronous first part of [prepare()]:
    the high score is read ([parseInt(...) || 0]) and the [LOADING]
    overlay drawn; the rest of [prepare()], a [reset()], runs once the
    resources are loaded. *)

(** [parseInt(digits, 10)] is a double: it is the integer the digits
    denote when that integer is at most [2 ^ 53] in magnitude; beyond, it
    is the nearest double. *)
Definition read_exactly (v : Z) : bool := (Z.abs v <=? 2 ^ 53)%Z.

(** [parseInt(this._storage.load('highScore'), 10) || 0]: 0 when nothing
    is stored ([parseInt(null)] is [NaN]), the stored integer when it is
    read exactly; a stored integer that is read rounded is outside the
    model, and there is no result for it. *)
Definition parse_highScore (storage : list (string * Z)) : option Z :=
  match storage_load "highScore" storage with
  | Some v => if read_exactly v then Some v else None
  | None => Some 0%Z
  end.

(** The constructor and [prepare()] up to the [await], once the high
    score is read: the [LOADING] overlay is drawn. *)
Definition prepared (highScore : Z) (cfg : Config) (storage : list (string * Z))
    (canvas : Canvas) (oracle : list (list Spawn)) : Outcome unit :=
  _changeState LOADING
    (mkGame cfg storage None LOADING [] canvas None None None None None None
       highScore [] [] 0 0 oracle).

Definition launch (cfg : Config) (storage : list (string * Z)) (canvas : Canvas)
    (oracle : list (list Spawn)) : option (Outcome unit) :=
  option_map (fun highScore => prepared highScore cfg storage canvas oracle)
    (parse_highScore storage).

Inductive Event : Type :=
| Loaded (now : Z)
| Action (now : Z)
| Resize (now : Z) (clientWidth clientHeight : Q)
| Frame (now : Z).

Definition at_time (now : Z) (m : M unit) : M unit :=
  modify (set_date_now now) ;; m.

(** The handler an event runs, when the event can occur: the rest of
    [prepare()] only while loading, a frame callback only if one is
    pending. *)
Definition handle (ev : Event) (g : Game) : option (Outcome unit) :=
  match ev with
  | Loaded now =>
      match _currentState g, _scene g with
      | LOADING, None => Some (at_time now reset g)
      | _, _ => None
      end
  | Action now => Some (at_time now _handleAction g)
  | Resize now w h =>
      Some (at_time now
              (modify (fun g => set_canvas
                 (mkCanvas w h (cv_width (_canvas g)) (cv_height (_canvas g))) g) ;;
               _resize) g)
  | Frame now =>
      match scheduled g with
      | O => None
      | S n => Some (at_time now (modify (set_scheduled n) ;; _loop) g)
      end
  end.

Fixpoint run (evs : list Event) (g : Game) : option Game :=
  match evs with
  | [] => Some g
  | ev :: rest =>
      match handle ev g with
      | Some o => match after o with Some g' => run rest g' | None => None end
      | None => None
      end
  end.

(** The games an execution can reach from a launch. *)
Inductive reachable (g0 : Game) : Game -> Prop :=
| reach_start : reachable g0 g0
| reach_step g ev o g' :
    reachable g0 g -> handle ev g = Some o -> after o = Some g' -> reachable g0 g'.

(** The position of the bird, in lowest terms. *)
Definition bird_position (g : Game) : option (Q * Q) :=
  match _bird g with
  | Some b => option_map (fun e => (Qred (x e), Qred (y e))) (nth_error (heap g) b)
  | None => None
  end.

(** ** A sample session

    A 400 x 300 canvas, a 30 x 20 bird, tubes scrolling at 100 px/s, level
    steps of 5 px/s, background tiles 200 wide at scene height 300.  The
    first update spawns one pair at [x = 90], so that its centre, 115, is
    the centre of the bird, which hovers in its gap. *)

Module Sample.

Definition config : Config :=
  mkConfig 1000 400 300 100 30 20 300 10 100 50 20 80 120 150 250 200
    (mkNonZero false 300 1) 50 60 5
    "Loading" "Press space" "Game over".

Definition canvas : Canvas := mkCanvas 400 300 0 0.

Definition oracle : list (list Spawn) := [[mkSpawn (-310) 100 100]].

Definition launched : Game :=
  Eval vm_compute in
    match launch config [] canvas oracle with
    | Some (Ok _ g) => g
    | Some (Throw _ g) => g
    | _ => mkGame config [] None LOADING [] canvas None None None None None None
             0 [] [] 0 0 oracle
    end.

Definition after_events (evs : list Event) : Game :=
  match run evs launched with Some g => g | None => launched end.

(** Loaded, waiting for the first action. *)
Definition idle : Game := Eval vm_compute in after_events [Loaded 0].

(** The session just started, at time 1000 ms. *)
Definition playing : Game := Eval vm_compute in after_events [Loaded 0; Action 1000].

(** The bird has fallen for ten seconds and reached the floor. *)
Definition over : Game :=
  Eval vm_compute in after_events [Loaded 0; Action 1000; Frame 11000].

(** The loaded game after one update of zero duration: the pair is
    spawned under the bird and scores. *)
Definition scored : Game :=
  Eval vm_compute in
    match after (_update 0 idle) with Some g => g | None => idle end.

(** The loaded game once the tube driver has spawned the pair. *)
Definition spawned : Game :=
  Eval vm_compute in
    match after (TubesDriver_update idle) with Some g => g | None => idle end.


(** The same with nine points already scored, and what the tenth point
    makes of it. *)
Definition ninth : Game := Eval vm_compute in set_score (Some 9%Z) spawned.


(** The window is resized a tenth of a second into the session. *)
Definition resized : Game :=
  Eval vm_compute in after_events [Loaded 0; Action 1000; Resize 1100 400 300].

(** Ten seconds later the tick requested by [start()] finds the bird on
    the floor ... *)
Definition fallen : Game :=
  Eval vm_compute in
    after_events [Loaded 0; Action 1000; Resize 1100 400 300; Frame 11000].

(** ... and the tick requested by the resize runs all the same. *)
Definition late : Game :=
  Eval vm_compute in
    after_events [Loaded 0; Action 1000; Resize 1100 400 300; Frame 11000; Frame 11016].

(** The bird of the running session is the entity 13. *)
Definition bird (g : Game) : Entity :=
  nth 13 (heap g) (mkEntity 0 0 0 0 0 0 false (BirdX 0 0 false 0)).

End Sample.

(** ** Vocabulary of the properties

    What the statements below speak of: observations of the game, the
    game a method leaves behind, and the executions considered. *)

(** The effects that only draw. *)
Definition is_drawing (e : Effect) : bool :=
  match e with
  | Clear | DrawCenteredText _ | DrawWithScores _ _ _ | DrawScene | DrawScoreLabel _ => true
  | _ => false
  end.

(** The storage writes among the effects. *)
Definition saves (l : list Effect) : list Effect :=
  filter (fun e => match e with Save _ _ => true | _ => false end) l.

Definition respects {A} (R : Game -> Game -> Prop) (m : M A) : Prop :=
  forall g g', after (m g) = Some g' -> R g g'.

(** [keeps f m]: [m] does not change the observation [f] of the game. *)
Definition keeps {A X} (f : Game -> X) (m : M A) : Prop :=
  respects (fun g g' => f g' = f g) m.

Definition ended (sound : string) (g : Game) : Game :=
  set_effects
    (DrawWithScores (texts_gameOver (_config g)) (_score g) (_highScore g)
       :: Clear :: Play sound :: effects g)
    (set_currentState GAME_OVER g).

(** The bird after the inherited update, the physics step and the clamp
    of [y] at the ceiling. *)
Definition clamp (e : Entity) : Entity := if Qltb (y e) 0 then set_y 0 e else e.

Definition moved (cfg : Config) (gravity delta : Q) (e : Entity) : Entity :=
  clamp (integrate gravity delta (animate (bird_animationSpeed cfg) delta e)).


(** What the persisted high score consists of: the in-memory value, the
    storage, and the writes made to the storage. *)
Definition persisted (g : Game) : Z * list (string * Z) * list Effect :=
  (_highScore g, _storage g, saves (effects g)).

(** The part of [_update] that comes before the high-score test. *)
Definition simulate (delta : Q) : M unit :=
  TubesDriver_update ;; Scene_update delta ;; _updateScore delta.

(** The high-score test that ends [_update]. *)
Definition recordHighScore : M unit :=
  g <- get ;;
  match _score g with
  | Some s =>
      when (s >? _highScore g)%Z
        (modify (set_highScore s) ;;
         LocalStorage_save "highScore" s)
  | None => ret tt
  end.

(** [halts m]: [m] always ends, by returning or by throwing. *)
Definition halts {A} (m : M A) : Prop := forall g, after (m g) <> None.

(** The heap after [f] was applied to the entities [ids], one by one. *)
Definition update_all (f : Entity -> Entity) (ids : list nat) (h : list Entity) :=
  fold_left (fun h id => list_update id f h) ids h.

(** [id] is one of [ids]. *)
Definition mem (id : nat) (ids : list nat) : bool := existsb (Nat.eqb id) ids.

(** [entity instanceof Tube || entity instanceof Background]. *)
Definition moving (h : list Entity) (id : nat) : bool :=
  match nth_error h id with
  | Some e => isTube e || isBackground e
  | None => false
  end.

(** The game after the point is counted and the point sound played. *)
Definition pointCounted (g : Game) : Game :=
  set_effects (Play "pointSound" :: effects g)
    (set_score (option_map Z.succ (_score g)) g).


(** The tile [new Background({x, y: 0, width, height, speed, ...})] of a
    scene [H] high. *)
Definition tile (cfg : Config) (H x0 : Q) : Entity :=
  mkEntity x0 0 (H * (background_width cfg / background_height cfg)) H
    (background_speed cfg) 0%Z false (BackgroundX x0).

(** The [x] of the tiles that the loop adds after a tile at [xl], in a
    scene [W] wide and [H] high. *)
Fixpoint more_tiles (cfg : Config) (W H : Q) (fuel : nat) (xl : Q) : option (list Q) :=
  let w := H * (background_width cfg / background_height cfg) in
  if Qltb xl W then
    match fuel with
    | O => None
    | S fuel' => option_map (cons (xl + w)) (more_tiles cfg W H fuel' (xl + w))
    end
  else Some [].

(** The game with tiles at [xs] added to the heap, to the scene and to
    [_backgrounds]. *)
Definition grown (cfg : Config) (W H : Q) (g : Game) (ents : list nat) (xs : list Q)
    : Game :=
  let ids := seq (List.length (heap g)) (List.length xs) in
  set_backgrounds (_backgrounds g ++ ids)
    (set_scene (Some (mkScene W H (ents ++ ids)))
       (set_heap (heap g ++ map (tile cfg H) xs) g)).

(** Tiles that follow one another without a gap, the first at [x0]. *)
Fixpoint contiguous_from (x0 : Q) (tiles : list Entity) : Prop :=
  match tiles with
  | [] => True
  | t :: rest => x t = x0 /\ contiguous_from (x t + width t) rest
  end.

(** The right edge of the last tile of a row that starts at [x0]. *)
Fixpoint right_end (x0 : Q) (tiles : list Entity) : Q :=
  match tiles with
  | [] => x0
  | t :: rest => right_end (x t + width t) rest
  end.

(** The entities of a scene once those in [ids] were deleted. *)
Definition without (ids ents : list nat) : list nat :=
  fold_left (fun l id => filter (fun i => negb (Nat.eqb i id)) l) ids ents.

(** The game after the tail of a tick that is still [PLAYING]: the
    frame is drawn, [_lastUpdate] is the time of the tick, one more tick
    is requested. *)
Definition ticked (now : Z) (g : Game) : Game :=
  set_scheduled (S (scheduled g))
    (set_lastUpdate (Some now)
       (set_effects (DrawScoreLabel (_score g) :: DrawScene :: Clear :: effects g) g)).

(** The progress of the game. *)
Definition progress (g : Game) :=
  (_currentState g, _score g, _level g, _highScore g, _bird g).

(** What the frame loop goes by. *)
Definition pacing (g : Game) := (scheduled g, _lastUpdate g).

(** The entities a method found are still there, unchanged, after it. *)
Definition extends (g g' : Game) : Prop :=
  forall i e, nth_error (heap g) i = Some e -> nth_error (heap g') i = Some e.

(** [_resize] up to the redraw of the current state. *)
Definition resizeAndTile : M unit :=
  g <- get ;;
  let width := clientWidth (_canvas g) in
  let height := clientHeight (_canvas g) in
  modify (set_canvas (mkCanvas width height width height)) ;;
  Scene_resize width height ;;
  emit (ResizeSurface width height) ;;
  _generateBackgrounds.

(** The last statement of [_resize]. *)
Definition redraw : M unit := g <- get ;; _changeState (_currentState g).

(** The overlay of a state other than [PLAYING]. *)
Definition overlay (s : State) (g : Game) : Effect :=
  match s with
  | LOADING => DrawCenteredText (texts_loading (_config g))
  | GAME_OVER => DrawWithScores (texts_gameOver (_config g)) (_score g) (_highScore g)
  | _ => DrawWithScores (texts_idle (_config g)) (_score g) (_highScore g)
  end.

(** A method requested at most one tick, and then left the game
    [PLAYING]. *)
Definition requested_at_most_one (g g' : Game) : Prop :=
  scheduled g' = scheduled g
  \/ (_currentState g' = PLAYING /\ scheduled g' = S (scheduled g)).

(** No tick is pending, or the game is [PLAYING] and exactly one is. *)
Definition settled (g : Game) : Prop :=
  scheduled g = 0%nat \/ (_currentState g = PLAYING /\ scheduled g = 1%nat).

(** The event is not a resize that arrives during play. *)
Definition calm (ev : Event) (g : Game) : Prop :=
  match ev with
  | Resize _ _ _ => _currentState g <> PLAYING
  | _ => True
  end.

Inductive reachable_calmly (g0 : Game) : Game -> Prop :=
| calm_start : reachable_calmly g0 g0
| calm_step g ev o g' :
    reachable_calmly g0 g -> calm ev g ->
    handle ev g = Some o -> after o = Some g' -> reachable_calmly g0 g'.

(** The state is what it was, or the game has ended. *)
Definition stays_or_ends (g g' : Game) : Prop :=
  _currentState g' = _currentState g \/ _currentState g' = GAME_OVER.

(** The level is the number of completed tens of the score; before the
    first [reset()] neither is a number. *)
Definition leveled (g : Game) : Prop :=
  match _score g, _level g with
  | Some s, Some l => (10 * l <= s < 10 * (l + 1))%Z
  | None, None => True
  | _, _ => False
  end.

Definition keeps_leveled (g g' : Game) : Prop := leveled g -> leveled g'.

(** Score and level, the two counters of a session. *)
Definition counters (g : Game) : option Z * option Z := (_score g, _level g).

(** The game at the moment [reset()] calls [_resize()]: the [IDLE]
    overlay is drawn, score and level are 0, the physics engine and an
    empty scene of the configured canvas size are in place. *)
Definition cleared (g : Game) : Game :=
  set_scene (Some (mkScene (canvas_width (_config g)) (canvas_height (_config g)) []))
    (set_physicsEngine (Some (gravitation (_config g)))
       (set_level (Some 0%Z)
          (set_score (Some 0%Z)
             (set_effects (overlay IDLE g :: Clear :: effects g)
                (set_currentState IDLE g))))).

(** The integer stored under ["highScore"], 0 when nothing is stored. *)
Definition stored_value (storage : list (string * Z)) : Z :=
  match storage_load "highScore" storage with Some v => v | None => 0%Z end.

(** The in-memory high score is the stored integer. *)
Definition saved (g : Game) : Prop := _highScore g = stored_value (_storage g).

Definition keeps_saved (g g' : Game) : Prop := saved g -> saved g'.

(** The game [_resize()] works on once canvas, scene and drawing surface
    have the client size of the canvas. *)
Definition fitted (g : Game) (ents : list nat) : Game :=
  let W := clientWidth (_canvas g) in
  let H := clientHeight (_canvas g) in
  set_effects (ResizeSurface W H :: effects g)
    (set_scene (Some (mkScene W H ents))
       (set_canvas (mkCanvas W H W H) g)).

(** The overlay of the current state, drawn anew. *)
Definition redrawn (g : Game) : Game :=
  set_effects (overlay (_currentState g) g :: Clear :: effects g)
    (set_currentState (_currentState g) g).

(** The bird [_createEntities] constructs in a scene [H] high. *)
Definition newBird (cfg : Config) (H : Q) : Entity :=
  mkEntity (bird_startX cfg) (H / 2 - bird_height cfg / 2) (bird_width cfg)
    (bird_height cfg) 0 2%Z true (BirdX 0 (bird_flapSpeed cfg) true 0).

(** The tube driver [_createEntities] constructs. *)
Definition newDriver (cfg : Config) : TubesDriver :=
  mkTubesDriver (tubes_speed cfg) (tubes_width cfg) (tubes_borderOffset cfg)
    (tubes_spaceMin cfg) (tubes_spaceMax cfg) (tubes_minDistance cfg)
    (tubes_maxDistance cfg) [].

(** The game [_createEntities()] leaves in a scene [W] wide and [H] high
    that holds [ents], when the background tiles are at [xs]. *)
Definition populated (g : Game) (W H : Q) (ents : list nat) (xs : list Q) : Game :=
  let cfg := _config g in
  let g1 := grown cfg W H (set_backgrounds [] g) ents xs in
  let b := List.length (heap g1) in
  set_bird (Some b)
    (set_scene (Some (mkScene W H ((ents ++ _backgrounds g1) ++ [b])))
       (set_heap (heap g1 ++ [newBird cfg H])
          (set_tubesDriver (Some (newDriver cfg)) g1))).

(** The game [reset()] leaves when one generation of background tiles
    has its tiles at [xs]. *)
Definition restarted (g : Game) (xs : list Q) : Game :=
  let W := clientWidth (_canvas g) in
  let H := clientHeight (_canvas g) in
  populated (redrawn (grown (_config g) W H (fitted (cleared g) []) [] xs))
    W H (seq (List.length (heap g)) (List.length xs)) xs.

(** * Properties *)

(** ** Comparisons and states *)

Lemma Qltb_true (a b : Q) : Qltb a b = true <-> a < b.
Proof.
  unfold Qltb. rewrite negb_true_iff. split; intro H.
  - apply Qnot_le_lt. intro L. apply Qle_bool_iff in L. congruence.
  - destruct (Qle_bool b a) eqn:E; [|reflexivity].
    apply Qle_bool_iff in E. exfalso. apply (Qlt_not_le _ _ H E).
Qed.

Lemma Qltb_false (a b : Q) : Qltb a b = false <-> b <= a.
Proof.
  unfold Qltb. rewrite negb_false_iff. apply Qle_bool_iff.
Qed.



(** The divisor of the aspect ratio of the tiles is not 0. *)
Lemma background_height_nonzero (cfg : Config) : ~ background_height cfg == 0.
Proof.
  unfold background_height, nonzero, Qeq. simpl.
  destruct (negative (background_sprite_height cfg)); discriminate.
Qed.

Lemma State_eqb_eq (a b : State) : State_eqb a b = true <-> a = b.
Proof. destruct a, b; simpl; split; congruence. Qed.

(** ** What a method leaves alone

    [respects R m]: whenever [m] ends, by returning or by throwing, the
    game it leaves is related by [R] to the game it started from. *)

Section Respects.
Context (R : Game -> Game -> Prop) {R_pre : PreOrder R}.

Lemma respects_ret {A} (a : A) : respects R (ret a).
Proof. intros g g' H. inversion H. reflexivity. Qed.

Lemma respects_throw {A} (e : Error) : respects R (@throw A e).
Proof. intros g g' H. inversion H. reflexivity. Qed.

Lemma respects_hang {A} : respects R (@hang A).
Proof. intros g g' H. discriminate H. Qed.

Lemma respects_get : respects R get.
Proof. intros g g' H. inversion H. reflexivity. Qed.

Lemma respects_defined {A} (o : option A) : respects R (defined o).
Proof. destruct o; [apply respects_ret | apply respects_throw]. Qed.

Lemma respects_modify (f : Game -> Game) :
  (forall g, R g (f g)) -> respects R (modify f).
Proof. intros Hf g g' H. inversion H. apply Hf. Qed.

Lemma respects_bind {A B} (m : M A) (k : A -> M B) :
  respects R m -> (forall a, respects R (k a)) -> respects R (bind m k).
Proof.
  intros Hm Hk g g' H. unfold bind in H.
  destruct (m g) as [a g1 | e g1 |] eqn:E.
  - transitivity g1; [apply Hm; rewrite E; reflexivity | apply (Hk a); exact H].
  - apply Hm. rewrite E. exact H.
  - discriminate H.
Qed.

Lemma respects_when (b : bool) (m : M unit) :
  respects R m -> respects R (when b m).
Proof. destruct b; simpl; [auto | intros _; apply respects_ret]. Qed.

Lemma respects_forEach {A} (f : A -> M unit) (xs : list A) :
  (forall a, respects R (f a)) -> respects R (forEach f xs).
Proof.
  intros Hf. induction xs as [|a rest IH]; simpl.
  - apply respects_ret.
  - apply respects_bind; [apply Hf | intros _; exact IH].
Qed.

Lemma respects_new_entity (e : Entity) :
  (forall g l, R g (set_heap (heap g ++ l) g)) -> respects R (new_entity e).
Proof. intros Hf g g' H. inversion H. apply Hf. Qed.

Lemma respects_changeState_with (loop : M unit) (s : State) :
  (forall e g, is_drawing e = true -> R g (set_effects (e :: effects g) g)) ->
  (forall g, R g (set_currentState s g)) ->
  (s = PLAYING -> respects R loop) ->
  respects R (_changeState_with loop s).
Proof.
  intros He Hs Hl g g' H.
  assert (Hpre : R g (set_currentState s (set_effects (Clear :: effects g) g))).
  { transitivity (set_effects (Clear :: effects g) g); [apply He; reflexivity | apply Hs]. }
  set (g1 := set_currentState s (set_effects (Clear :: effects g) g)) in *.
  etransitivity; [exact Hpre | ].
  destruct s.
  - change (Some (set_effects (DrawCenteredText (texts_loading (_config g1))
                                 :: effects g1) g1) = Some g') in H.
    inversion H. apply He. reflexivity.
  - change (Some (set_effects (DrawWithScores (texts_idle (_config g1)) (_score g1)
                                 (_highScore g1) :: effects g1) g1) = Some g') in H.
    inversion H. apply He. reflexivity.
  - apply (Hl eq_refl). exact H.
  - change (Some (set_effects (DrawWithScores (texts_gameOver (_config g1)) (_score g1)
                                 (_highScore g1) :: effects g1) g1) = Some g') in H.
    inversion H. apply He. reflexivity.
Qed.
End Respects.

#[local] Instance same_observation {X} (f : Game -> X) :
  PreOrder (fun g g' => f g' = f g).
Proof. split; [intros g; reflexivity | intros a b c H1 H2; congruence]. Qed.

Ltac respects_step :=
  match goal with
  | |- respects _ (bind _ _) => apply respects_bind; [ typeclasses eauto | | intros ? ]
  | |- respects _ (ret _) => apply respects_ret; typeclasses eauto
  | |- respects _ (throw _) => apply respects_throw; typeclasses eauto
  | |- respects _ hang => apply respects_hang
  | |- respects _ get => apply respects_get; typeclasses eauto
  | |- respects _ (defined _) => apply respects_defined; typeclasses eauto
  | |- respects _ (when _ _) => apply respects_when; [ typeclasses eauto | ]
  | |- respects _ (forEach _ _) => apply respects_forEach; [ typeclasses eauto | intros ? ]
  | |- respects _ (modify _) => apply respects_modify
  | |- respects _ (new_entity _) => apply respects_new_entity
  | |- respects _ (_changeState_with _ _) =>
      apply respects_changeState_with; [ typeclasses eauto | | | ]
  | |- respects _ (match ?o with _ => _ end) => destruct o
  | |- respects _ (if ?b then _ else _) => destruct b
  | |- respects _ (let _ := _ in _) => cbv zeta
  end.

Create HintDb methods.

#[local] Hint Unfold emit LocalStorage_save entity update_entity scene
  modify_scene Scene_add Entity_delete Scene_resize Scene_getEntities Scene_draw
  new_Background new_Tube new_Bird AnimatedEntity_update PhysicsEngine_update
  driver modify_driver TubesDriver_spawn TubesDriver_recycle TubesDriver_update
  TubesDriver_getTubes TubesDriver_increaseSpeed drawWithScores gameOver
  Bird_update Bird_collide Bird_flap Entity_update Entity_collide check_pair
  Scene_update _increaseLevel _updateScore _update _draw requestAnimationFrame
  _configurePhysicsEngine _configureCollisionEngine _configureScene flapBird : methods.

Ltac same_field :=
  intros; simpl;
  repeat match goal with
         | |- context [match ?o with _ => _ end] => destruct o
         end;
  try reflexivity; auto.

Ltac frame :=
  unfold keeps; autounfold with methods;
  repeat first
    [ respects_step
    | progress autounfold with methods ];
  try solve [ same_field | intros; congruence | discriminate
            | intros [] ? ?; try discriminate; reflexivity ].

(** ** The heap under [list_update] *)

Lemma nth_error_list_update {A} (f : A -> A) (l : list A) (i j : nat) :
  nth_error (list_update i f l) j
  = if Nat.eqb j i then option_map f (nth_error l j) else nth_error l j.
Proof.
  revert i j. induction l as [|a rest IH]; intros i j.
  - destruct i, j; simpl; try reflexivity. destruct (Nat.eqb j i); reflexivity.
  - destruct i as [|i]; destruct j as [|j]; simpl; try reflexivity.
    apply IH.
Qed.

Lemma nth_error_list_update_same {A} (f : A -> A) (l : list A) (i : nat) (a : A) :
  nth_error l i = Some a -> nth_error (list_update i f l) i = Some (f a).
Proof.
  intros H. rewrite nth_error_list_update, Nat.eqb_refl, H. reflexivity.
Qed.

Lemma length_list_update {A} (f : A -> A) (l : list A) (i : nat) :
  List.length (list_update i f l) = List.length l.
Proof.
  revert i. induction l as [|a rest IH]; intros [|i]; simpl; auto.
Qed.

(** ** The game once [sound.play(); this._game.gameOver()] has run *)

Lemma play_then_gameOver (sound : string) (g : Game) :
  (emit (Play sound) ;; gameOver) g = Ok tt (ended sound g).
Proof. reflexivity. Qed.

Lemma gameOver_is_changeState : gameOver = _changeState GAME_OVER.
Proof. reflexivity. Qed.

(** ** [Bird.flap] *)

(** C10: whatever the falling speed was, [flap()] makes it exactly
    [-flapSpeed]: the old value is replaced, not added to.  Position,
    size and every other field of the bird stay as they were, the other
    entities are untouched, and the only other effect is the flap
    sound. *)
Theorem flap_replaces_falling_speed :
  forall (x0 y0 w h s : Q) (z : Z) (c : bool) (v f : Q) (fl : bool) (t : Q)
         (this : nat) (g : Game),
    flap (mkEntity x0 y0 w h s z c (BirdX v f fl t))
      = mkEntity x0 y0 w h s z c (BirdX (- f) f fl t)
    /\ Bird_flap this g
       = Ok tt (set_effects (Play "flapSound" :: effects g)
                  (set_heap (list_update this flap (heap g)) g))
    /\ forall j, nth_error (list_update this flap (heap g)) j
                 = if Nat.eqb j this then option_map flap (nth_error (heap g) j)
                   else nth_error (heap g) j.
Proof.
  intros. split; [reflexivity | split; [reflexivity | ]].
  intros j. apply nth_error_list_update.
Qed.

(** ** [Bird.collide] *)

(** C6: [collide(entity)] ends the game exactly when [entity] is a
    [Tube]: then the hit sound plays and the state becomes [GAME_OVER];
    for an entity of any other class the game is left as it was. *)
Theorem Bird_collide_only_tubes_end_the_game :
  forall (this : nat) (other : Entity) (g : Game),
    Bird_collide this other g
      = Ok tt (if isTube other then ended "hitSound" g else g)
    /\ _currentState (ended "hitSound" g) = GAME_OVER.
Proof.
  intros. split; [ | reflexivity].
  unfold Bird_collide. destruct (isTube other); reflexivity.
Qed.

(** ** [Bird.update] *)


Lemma clamp_height (e : Entity) : height (clamp e) = height e.
Proof. unfold clamp. destruct (Qltb (y e) 0); reflexivity. Qed.

Lemma list_update_twice {A} (f g : A -> A) (l : list A) (i : nat) :
  list_update i g (list_update i f l) = list_update i (fun a => g (f a)) l.
Proof.
  revert i. induction l as [|a rest IH]; intros [|i]; simpl; try reflexivity.
  rewrite IH. reflexivity.
Qed.

Lemma list_update_id {A} (l : list A) (i : nat) :
  list_update i (fun a => a) l = l.
Proof.
  revert i. induction l as [|a rest IH]; intros [|i]; simpl; try reflexivity.
  rewrite IH. reflexivity.
Qed.

Lemma list_update_ext_at {A} (f g : A -> A) (l : list A) (i : nat) (a : A) :
  nth_error l i = Some a -> f a = g a -> list_update i f l = list_update i g l.
Proof.
  revert i. induction l as [|b rest IH]; intros [|i] H E; simpl in *; try discriminate.
  - inversion H; subst. rewrite E. reflexivity.
  - rewrite (IH i H E). reflexivity.
Qed.

(** What [Bird.update(delta)] does to a game that has its scene and
    physics engine, on the bird [e] stored at [this]. *)
Lemma Bird_update_runs (g : Game) (this : nat) (e : Entity) (sc : Scene)
    (gravity delta : Q) :
  nth_error (heap g) this = Some e ->
  _scene g = Some sc ->
  _physicsEngine g = Some gravity ->
  let e' := moved (_config g) gravity delta e in
  let g1 := set_heap (list_update this (moved (_config g) gravity delta) (heap g)) g in
  nth_error (heap g1) this = Some e' /\
  Bird_update this delta g
    = Ok tt (if Qgeb (y e' + height e') (scene_height sc)
             then ended "dieSound" g1 else g1).
Proof.
  intros He Hsc Hph e' g1. split.
  { apply nth_error_list_update_same. exact He. }
  set (a := animate (bird_animationSpeed (_config g)) delta).
  set (p := integrate gravity delta).
  assert (H2 : nth_error (list_update this p (list_update this a (heap g))) this
               = Some (p (a e))).
  { do 2 (apply nth_error_list_update_same). exact He. }
  unfold Bird_update, AnimatedEntity_update, PhysicsEngine_update, entity, scene,
    update_entity, bind, get, modify, defined, ret, when. simpl.
  rewrite Hph. simpl. fold a. fold p. rewrite H2. simpl.
  assert (Hheap : (if Qltb (y (p (a e))) 0
                   then list_update this (set_y 0)
                          (list_update this p (list_update this a (heap g)))
                   else list_update this p (list_update this a (heap g)))
                  = heap g1).
  { unfold g1. simpl. rewrite !list_update_twice.
    destruct (Qltb (y (p (a e))) 0) eqn:E.
    - apply (list_update_ext_at _ _ _ _ e He). unfold moved, clamp. fold a. fold p.
      rewrite E. reflexivity.
    - apply (list_update_ext_at _ _ _ _ e He). unfold moved, clamp. fold a. fold p.
      rewrite E. reflexivity. }
  assert (He' : e' = clamp (p (a e))) by reflexivity.
  assert (Hh : height e' = height (p (a e))) by (rewrite He'; apply clamp_height).
  destruct (Qltb (y (p (a e))) 0) eqn:E; simpl.
  - assert (Hy : y e' = 0) by (rewrite He'; unfold clamp; rewrite E; reflexivity).
    rewrite (nth_error_list_update_same _ _ _ _ H2). simpl. rewrite Hsc. simpl.
    rewrite Hheap, Hy, Hh.
    destruct (Qgeb (0 + height (p (a e))) (scene_height sc)); reflexivity.
  - assert (Hy : y e' = y (p (a e))) by (rewrite He'; unfold clamp; rewrite E; reflexivity).
    rewrite H2. simpl. rewrite Hsc. simpl.
    rewrite Hheap, Hy, Hh.
    destruct (Qgeb (y (p (a e)) + height (p (a e))) (scene_height sc)); reflexivity.
Qed.




(** ** [Game._update]: the high score *)

Lemma TubesDriver_update_keeps_persisted : keeps persisted TubesDriver_update.
Proof. frame. Qed.

Lemma Scene_update_keeps_persisted (delta : Q) : keeps persisted (Scene_update delta).
Proof. frame. Qed.

Lemma updateScore_keeps_persisted (delta : Q) : keeps persisted (_updateScore delta).
Proof. frame. Qed.

Lemma after_bind {A B} (m : M A) (k : A -> M B) (g g' : Game) :
  after (bind m k g) = Some g' ->
  (exists a g1, m g = Ok a g1 /\ after (k a g1) = Some g')
  \/ (exists e, m g = Throw e g' /\ bind m k g = Throw e g').
Proof.
  unfold bind. destruct (m g) as [a g1 | e g1 |]; intros H.
  - left. exists a, g1. split; [reflexivity | exact H].
  - right. exists e. inversion H. split; reflexivity.
  - discriminate H.
Qed.

Lemma update_in_two_parts (delta : Q) (g : Game) :
  _update delta g = (simulate delta ;; recordHighScore) g.
Proof.
  unfold _update, simulate, recordHighScore, bind.
  destruct (TubesDriver_update g) as [[] g1 | |]; try reflexivity.
  destruct (Scene_update delta g1) as [[] g2 | |]; try reflexivity.
Qed.

Lemma simulate_keeps_persisted (delta : Q) : keeps persisted (simulate delta).
Proof.
  unfold keeps, simulate.
  apply respects_bind; [typeclasses eauto | apply TubesDriver_update_keeps_persisted | intros _].
  apply respects_bind; [typeclasses eauto | apply Scene_update_keeps_persisted | intros _].
  apply updateScore_keeps_persisted.
Qed.

(** C7: across an update tick the in-memory high score never decreases.
    On a tick that runs to its end, the high score is set to the score
    and written to the storage under ["highScore"], once, exactly when
    the score of that tick is strictly greater than the high score; on
    every other tick (also one cut short by an exception) the in-memory
    value, the storage and the writes made to it are what they were. *)
Theorem high_score_grows_and_is_saved_when_beaten :
  forall (delta : Q) (g g' : Game),
    after (_update delta g) = Some g' ->
    (_highScore g <= _highScore g')%Z
    /\ match _update delta g, _score g' with
       | Ok _ _, Some s =>
           if (s >? _highScore g)%Z
           then persisted g' = (s, storage_save "highScore" s (_storage g),
                                Save "highScore" s :: saves (effects g))
           else persisted g' = persisted g
       | _, _ => persisted g' = persisted g
       end.
Proof.
  intros delta g g' H. rewrite update_in_two_parts in *.
  pose proof (simulate_keeps_persisted delta g) as K.
  unfold bind in *. destruct (simulate delta g) as [[] g1 | e g1 |]; [ | | discriminate H].
  - specialize (K g1 eq_refl). unfold persisted in K. injection K as Kh Ks Ke.
    unfold recordHighScore, bind, get in *.
    destruct (_score g1) as [s|] eqn:Es.
    + destruct (s >? _highScore g1)%Z eqn:T; simpl in H |- *; inversion H; subst g'; simpl.
      * rewrite Es, <- Kh, T. unfold persisted. simpl. rewrite Ks, Ke.
        split; [ | reflexivity]. apply Z.gtb_lt in T. lia.
      * rewrite Es, <- Kh, T. unfold persisted. rewrite Kh, Ks, Ke.
        split; [lia | reflexivity].
    + simpl in H |- *. inversion H; subst g'. rewrite Es. unfold persisted.
      rewrite Kh, Ks, Ke. split; [lia | reflexivity].
  - inversion H; subst g'. specialize (K g1 eq_refl). unfold persisted in *.
    injection K as Kh Ks Ke. rewrite Kh, Ks, Ke. split; [lia | reflexivity].
Qed.

Lemma high_score_grows_and_is_saved_when_beaten_witness :
  after (_update 0 Sample.idle) = Some Sample.scored
  /\ (0 <= 1)%Z
  /\ persisted Sample.scored
     = (1%Z, storage_save "highScore" 1 [], Save "highScore" 1 :: []).
Proof.
  split; [vm_compute; reflexivity | ].
  apply (high_score_grows_and_is_saved_when_beaten 0 Sample.idle Sample.scored).
  vm_compute. reflexivity.
Defined.

(** ** Methods that always end *)

Lemma halts_ret {A} (a : A) : halts (ret a).
Proof. intros g. discriminate. Qed.

Lemma halts_throw {A} (e : Error) : halts (@throw A e).
Proof. intros g. discriminate. Qed.

Lemma halts_get : halts get.
Proof. intros g. discriminate. Qed.

Lemma halts_modify (f : Game -> Game) : halts (modify f).
Proof. intros g. discriminate. Qed.

Lemma halts_defined {A} (o : option A) : halts (defined o).
Proof. destruct o; intros g; discriminate. Qed.

Lemma halts_bind {A B} (m : M A) (k : A -> M B) :
  halts m -> (forall a, halts (k a)) -> halts (bind m k).
Proof.
  intros Hm Hk g. unfold bind. specialize (Hm g).
  destruct (m g) as [a g1 | e g1 |]; [apply Hk | discriminate | exact Hm].
Qed.

Lemma halts_new_entity (e : Entity) : halts (new_entity e).
Proof. intros g. discriminate. Qed.

Lemma halts_when (b : bool) (m : M unit) : halts m -> halts (when b m).
Proof. destruct b; simpl; [auto | intros _; apply halts_ret]. Qed.

Lemma halts_forEach {A} (f : A -> M unit) (xs : list A) :
  (forall a, halts (f a)) -> halts (forEach f xs).
Proof.
  intros Hf. induction xs as [|a rest IH]; simpl.
  - apply halts_ret.
  - apply halts_bind; [apply Hf | intros _; exact IH].
Qed.

Lemma halts_changeState_with (loop : M unit) (s : State) :
  (s = PLAYING -> halts loop) -> halts (_changeState_with loop s).
Proof.
  intros Hl g. destruct s; try discriminate.
  apply (Hl eq_refl).
Qed.

Ltac halts_step :=
  match goal with
  | |- halts (bind _ _) => apply halts_bind; [ | intros ? ]
  | |- halts (ret _) => apply halts_ret
  | |- halts (throw _) => apply halts_throw
  | |- halts get => apply halts_get
  | |- halts (defined _) => apply halts_defined
  | |- halts (when _ _) => apply halts_when
  | |- halts (forEach _ _) => apply halts_forEach; intros ?
  | |- halts (modify _) => apply halts_modify
  | |- halts (new_entity _) => apply halts_new_entity
  | |- halts (_changeState_with _ _) => apply halts_changeState_with
  | |- halts (match ?o with _ => _ end) => destruct o
  | |- halts (if ?b then _ else _) => destruct b
  | |- halts (let _ := _ in _) => cbv zeta
  end.

Ltac ends :=
  autounfold with methods;
  repeat first [ halts_step | progress autounfold with methods ];
  try discriminate.

Lemma increaseLevel_halts : halts _increaseLevel.
Proof. ends. Qed.

Lemma update_halts (delta : Q) : halts (_update delta).
Proof. ends. Qed.

Lemma loop_halts : halts _loop.
Proof. unfold _loop. ends. Qed.

(** ** [Game._updateScore] *)

Lemma increaseLevel_keeps_score : keeps _score _increaseLevel.
Proof. frame. Qed.

Lemma scorePoint_adds_one (g g' : Game) :
  after (scorePoint g) = Some g' -> _score g' = option_map Z.succ (_score g).
Proof.
  unfold scorePoint, emit. intros H.
  apply after_bind in H. destruct H as [(a & g1 & E1 & H) | (e & E & _)]; [ | discriminate E].
  inversion E1; subst g1. clear E1.
  apply after_bind in H. destruct H as [(a2 & g2 & E2 & H) | (e & E & _)]; [ | discriminate E].
  inversion E2; subst g2. clear E2.
  apply after_bind in H. destruct H as [(g3 & g4 & E3 & H) | (e & E & _)]; [ | discriminate E].
  inversion E3; subst g3 g4. clear E3.
  assert (K : keeps _score (when (levelReached
            (_score (set_effects (Play "pointSound" :: effects
               (set_score (option_map Z.succ (_score g)) g))
               (set_score (option_map Z.succ (_score g)) g)))
            (_level (set_effects (Play "pointSound" :: effects
               (set_score (option_map Z.succ (_score g)) g))
               (set_score (option_map Z.succ (_score g)) g)))) _increaseLevel)).
  { apply respects_when; [typeclasses eauto | apply increaseLevel_keeps_score]. }
  apply K in H. rewrite H. reflexivity.
Qed.


(** [_updateScore] on a game that has its bird and its tube driver. *)
Lemma updateScore_runs (delta : Q) (g : Game) (b : nat) (bird : Entity) (td : TubesDriver) :
  _bird g = Some b ->
  nth_error (heap g) b = Some bird ->
  _tubesDriver g = Some td ->
  let birdCenter := x bird + width bird / 2 in
  _updateScore delta g
  = match filter (spanning (heap g) birdCenter birdCenter) (_tubes td) with
    | [] => Ok tt g
    | t :: _ =>
        match nth_error (heap g) t with
        | Some tube =>
            if crossing (x tube + width tube / 2) birdCenter (threshold g delta)
            then scorePoint g else Ok tt g
        | None => Throw TypeError g
        end
    end.
Proof.
  intros Hb He Htd birdCenter.
  unfold _updateScore, TubesDriver_getTubes, driver, entity, bind, get, defined. simpl.
  rewrite Hb. simpl. rewrite He. simpl. rewrite Htd. simpl. fold birdCenter.
  destruct (filter (spanning (heap g) birdCenter birdCenter) (_tubes td)) as [|t rest];
    [reflexivity | ].
  destruct (nth_error (heap g) t) as [tube|]; simpl; [ | reflexivity].
  unfold when, scorePoint.
  destruct (crossing (x tube + width tube / 2) birdCenter (threshold g delta)); reflexivity.
Qed.

Lemma updateScore_at_most_one (delta : Q) (g g' : Game) :
  after (_updateScore delta g) = Some g' ->
  _score g' = _score g \/ _score g' = option_map Z.succ (_score g).
Proof.
  intros H.
  destruct (_bird g) as [b|] eqn:Hb.
  2:{ unfold _updateScore, bind, get, defined in H. rewrite Hb in H. inversion H. auto. }
  destruct (nth_error (heap g) b) as [bird|] eqn:He.
  2:{ unfold _updateScore, entity, bind, get, defined in H. rewrite Hb in H. simpl in H.
      rewrite He in H. inversion H. auto. }
  destruct (_tubesDriver g) as [td|] eqn:Htd.
  2:{ unfold _updateScore, TubesDriver_getTubes, driver, entity, bind, get, defined in H.
      rewrite Hb in H. simpl in H. rewrite He in H. simpl in H. rewrite Htd in H.
      inversion H. auto. }
  rewrite (updateScore_runs delta g b bird td Hb He Htd) in H.
  destruct (filter _ _) as [|t rest]; [inversion H; auto | ].
  destruct (nth_error (heap g) t) as [tube|]; [ | inversion H; auto].
  destruct (crossing _ _ _); [ | inversion H; auto].
  right. apply scorePoint_adds_one. exact H.
Qed.

Lemma TubesDriver_update_keeps_score : keeps _score TubesDriver_update.
Proof. frame. Qed.

Lemma Scene_update_keeps_score (delta : Q) : keeps _score (Scene_update delta).
Proof. frame. Qed.

Lemma recordHighScore_keeps_score : keeps _score recordHighScore.
Proof. unfold recordHighScore. frame. Qed.

Lemma simulate_at_most_one (delta : Q) (g g' : Game) :
  after (simulate delta g) = Some g' ->
  _score g' = _score g \/ _score g' = option_map Z.succ (_score g).
Proof.
  unfold simulate. intros H.
  apply after_bind in H. destruct H as [(a & g1 & E1 & H) | (e & E & _)].
  2:{ left. apply (TubesDriver_update_keeps_score g). rewrite E. reflexivity. }
  assert (S1 : _score g1 = _score g).
  { apply (TubesDriver_update_keeps_score g). rewrite E1. reflexivity. }
  rewrite <- S1. clear S1 E1.
  apply after_bind in H. destruct H as [(a2 & g2 & E2 & H) | (e & E & _)].
  - assert (S2 : _score g2 = _score g1).
    { apply (Scene_update_keeps_score delta g1). rewrite E2. reflexivity. }
    rewrite <- S2. apply (updateScore_at_most_one delta). exact H.
  - left. apply (Scene_update_keeps_score delta g1). rewrite E. reflexivity.
Qed.

Lemma update_at_most_one (delta : Q) (g g' : Game) :
  after (_update delta g) = Some g' ->
  _score g' = _score g \/ _score g' = option_map Z.succ (_score g).
Proof.
  rewrite update_in_two_parts. intros H.
  apply after_bind in H. destruct H as [(a & g1 & E1 & H) | (e & E & _)].
  - apply recordHighScore_keeps_score in H. rewrite H.
    apply (simulate_at_most_one delta). rewrite E1. reflexivity.
  - apply (simulate_at_most_one delta). rewrite E. reflexivity.
Qed.



(** The scenario of the specification: speed 100, level 0, delta 0.1,
    bird centre 200, pair centre 199: the window is 10 and the pair is
    within 5 of the bird. *)
Example crossing_scenario :
  (100 + 5 * inject_Z 0) * (1 # 10) == 10
  /\ crossing 199 200 (Some ((100 + 5 * inject_Z 0) * (1 # 10))) = true.
Proof. split; reflexivity. Qed.



(** ** [Game._increaseLevel] *)

Lemma forEach_update_entity (f : Entity -> Entity) (ids : list nat) (g : Game) :
  forEach (fun id => update_entity id f) ids g
  = Ok tt (set_heap (update_all f ids (heap g)) g).
Proof.
  revert g. induction ids as [|id rest IH]; intros g.
  - destruct g; reflexivity.
  - simpl. unfold bind. unfold update_entity at 1. unfold modify.
    rewrite IH. reflexivity.
Qed.

Lemma mem_false_not_In (id : nat) (ids : list nat) : mem id ids = false <-> ~ In id ids.
Proof.
  unfold mem. split.
  - intros H Hin. assert (T : existsb (Nat.eqb id) ids = true).
    { apply existsb_exists. exists id. split; [exact Hin | apply Nat.eqb_refl]. }
    congruence.
  - intros H. destruct (existsb (Nat.eqb id) ids) eqn:E; [ | reflexivity].
    apply existsb_exists in E. destruct E as (j & Hj & Ej).
    apply Nat.eqb_eq in Ej. subst j. contradiction.
Qed.

Lemma nth_error_update_all (f : Entity -> Entity) (ids : list nat) (h : list Entity)
    (i : nat) :
  NoDup ids ->
  nth_error (update_all f ids h) i
  = if mem i ids then option_map f (nth_error h i) else nth_error h i.
Proof.
  revert h. induction ids as [|a rest IH]; intros h Hnd; [reflexivity | ].
  inversion Hnd as [|a' rest' Hnotin Hnd']; subst.
  apply mem_false_not_In in Hnotin.
  unfold update_all, mem in *. simpl. rewrite (IH _ Hnd').
  rewrite nth_error_list_update.
  destruct (Nat.eqb i a) eqn:E; simpl.
  - apply Nat.eqb_eq in E. subst i. rewrite Hnotin. reflexivity.
  - destruct (existsb (Nat.eqb i) rest); reflexivity.
Qed.

Lemma bind_ok {A B} (m : M A) (k : A -> M B) (g g1 : Game) (a : A) :
  m g = Ok a g1 -> bind m k g = k a g1.
Proof. intros H. unfold bind. rewrite H. reflexivity. Qed.

(** One step of a run: the first method of a sequence returns [a] and
    leaves the game [g1]. *)
Ltac run_with H :=
  match goal with
  | |- bind ?m ?k ?G = _ => rewrite (bind_ok m k G _ _ H); cbv beta
  end.

Ltac run_to a g1 :=
  match goal with
  | |- bind ?m ?k ?G = _ => rewrite (bind_ok m k G g1 a eq_refl); cbv beta
  end.

Lemma bind_assoc {A B C} (m : M A) (k1 : A -> M B) (k2 : B -> M C) (g : Game) :
  bind (bind m k1) k2 g = bind m (fun a => bind (k1 a) k2) g.
Proof. unfold bind. destruct (m g); reflexivity. Qed.

Lemma generate_unfold (fuel : nat) (lastBackground : option nat) :
  generate fuel lastBackground
  = (sc <- scene ;;
     continue <- match lastBackground with
                 | None => ret true
                 | Some l => e <- entity l ;; ret (Qltb (initialX e) (scene_width sc))
                 end ;;
     if continue : bool then
       match fuel with
       | O => hang
       | S fuel' =>
           x0 <- match lastBackground with
                 | None => ret 0
                 | Some l => e <- entity l ;; ret (x e + width e)
                 end ;;
           g <- get ;;
           background <- new_Background x0 0 (tileWidth (_config g) sc) (scene_height sc)
                           (background_speed (_config g)) ;;
           modify (fun g => set_backgrounds (_backgrounds g ++ [background]) g) ;;
           generate fuel' (Some background)
       end
     else ret tt).
Proof. destruct fuel; reflexivity. Qed.

Lemma scene_ok (g : Game) (sc : Scene) : _scene g = Some sc -> scene g = Ok sc g.
Proof. intros H. unfold scene, bind, get, defined. rewrite H. reflexivity. Qed.

Lemma driver_ok (g : Game) (td : TubesDriver) :
  _tubesDriver g = Some td -> driver g = Ok td g.
Proof. intros H. unfold driver, bind, get, defined. rewrite H. reflexivity. Qed.

Lemma entity_ok (g : Game) (id : nat) (e : Entity) :
  nth_error (heap g) id = Some e -> entity id g = Ok e g.
Proof. intros H. unfold entity, bind, get, defined. rewrite H. reflexivity. Qed.

Lemma Scene_getEntities_ok (g : Game) (sc : Scene) :
  _scene g = Some sc -> Scene_getEntities g = Ok (entities sc) g.
Proof.
  intros H. unfold Scene_getEntities. rewrite (bind_ok _ _ _ _ _ (scene_ok g sc H)).
  reflexivity.
Qed.

Lemma TubesDriver_increaseSpeed_runs (d : Q) (g : Game) (td : TubesDriver) :
  _tubesDriver g = Some td ->
  TubesDriver_increaseSpeed d g
  = Ok tt (set_tubesDriver (Some (set_td_speed (td_speed td + d) td))
             (set_heap (update_all (accelerate d) (_tubes td) (heap g)) g)).
Proof.
  intros Htd. unfold TubesDriver_increaseSpeed.
  rewrite (bind_ok _ _ _ _ _ (driver_ok g td Htd)).
  rewrite (bind_ok _ _ _ _ _ (forEach_update_entity _ _ g)).
  unfold modify_driver.
  match goal with
  | |- bind driver _ ?G = _ => rewrite (bind_ok _ _ _ _ _ (driver_ok G td Htd))
  end.
  reflexivity.
Qed.

(** [_increaseLevel] on a game that has its scene and its tube driver. *)
Lemma increaseLevel_runs (g : Game) (sc : Scene) (td : TubesDriver) :
  _scene g = Some sc ->
  _tubesDriver g = Some td ->
  let a := levelUpAcceleration (_config g) in
  _increaseLevel g
  = Ok tt
      (set_tubesDriver (Some (set_td_speed (td_speed td + a) td))
         (set_heap
            (update_all (accelerate a) (_tubes td)
               (update_all (accelerate a) (filter (moving (heap g)) (entities sc)) (heap g)))
            (set_level (option_map (fun l => (l + 1)%Z) (_level g)) g))).
Proof.
  intros Hsc Htd a.
  set (g1 := set_level (option_map (fun l => (l + 1)%Z) (_level g)) g).
  unfold _increaseLevel.
  run_to tt g1.
  run_with (Scene_getEntities_ok g1 sc Hsc).
  run_to g1 g1.
  run_with (forEach_update_entity (accelerate a) (filter (moving (heap g)) (entities sc)) g1).
  match goal with
  | |- TubesDriver_increaseSpeed _ ?G = _ =>
      exact (TubesDriver_increaseSpeed_runs a G td Htd)
  end.
Qed.

Lemma mem_filter (p : nat -> bool) (id : nat) (ids : list nat) :
  mem id (filter p ids) = mem id ids && p id.
Proof.
  unfold mem. induction ids as [|a rest IH]; [reflexivity | ]. simpl.
  destruct (p a) eqn:Pa; simpl; rewrite IH.
  - destruct (Nat.eqb id a) eqn:E; simpl; [ | reflexivity].
    apply Nat.eqb_eq in E. subst a. rewrite Pa. reflexivity.
  - destruct (Nat.eqb id a) eqn:E; simpl; [ | reflexivity].
    apply Nat.eqb_eq in E. subst a. rewrite Pa.
    destruct (existsb (Nat.eqb id) rest); reflexivity.
Qed.

Lemma mem_true_In (id : nat) (ids : list nat) : In id ids -> mem id ids = true.
Proof.
  intros H. destruct (mem id ids) eqn:E; [reflexivity | ].
  apply mem_false_not_In in E. contradiction.
Qed.

Lemma scorePoint_runs (g : Game) :
  scorePoint g
  = if levelReached (option_map Z.succ (_score g)) (_level g)
    then _increaseLevel (pointCounted g) else Ok tt (pointCounted g).
Proof.
  unfold scorePoint, emit, bind, modify, get, when. simpl.
  destruct (levelReached (option_map Z.succ (_score g)) (_level g)); reflexivity.
Qed.

(** What the tenth point does, with the driver's [increaseSpeed] as the
    specification has it: when the point just counted brings the score
    to [10 * (level + 1)] or beyond, the level goes up by exactly 1, the
    speed of the tube driver goes up by [levelUpAcceleration], and so
    does the speed of every background tile in the scene.  An obstacle
    pair in the scene is accelerated by [levelUpAcceleration] in the pass
    of [_increaseLevel] over the scene, and once more by the driver's
    [increaseSpeed] when the driver holds it as alive.  Otherwise level,
    speeds and driver stay as they were. *)
Lemma tenth_point_raises_level_and_speeds :
  forall (g : Game) (sc : Scene) (td : TubesDriver) (s l : Z),
    _scene g = Some sc ->
    _tubesDriver g = Some td ->
    _score g = Some s ->
    _level g = Some l ->
    NoDup (entities sc) ->
    NoDup (_tubes td) ->
    (forall id e, In id (_tubes td) -> nth_error (heap g) id = Some e -> isTube e = true) ->
    let a := levelUpAcceleration (_config g) in
    exists g',
      scorePoint g = Ok tt g'
      /\ _score g' = Some (s + 1)%Z
      /\ if (s + 1 >=? 10 * (l + 1))%Z
         then _level g' = Some (l + 1)%Z
              /\ option_map td_speed (_tubesDriver g') = Some (td_speed td + a)
              /\ (forall id e,
                    In id (entities sc) -> nth_error (heap g) id = Some e ->
                    isBackground e = true ->
                    nth_error (heap g') id = Some (set_speed (speed e + a) e))
              /\ (forall id e,
                    In id (entities sc) -> nth_error (heap g) id = Some e ->
                    isTube e = true ->
                    nth_error (heap g') id
                    = Some (if mem id (_tubes td)
                            then set_speed (speed e + a + a) e
                            else set_speed (speed e + a) e))
         else _level g' = Some l /\ heap g' = heap g /\ _tubesDriver g' = Some td.
Proof.
  intros g sc td s l Hsc Htd Hs Hl Hnd Hndt Htubes a.
  rewrite scorePoint_runs, Hs, Hl. cbn [option_map levelReached].
  replace (Z.succ s) with (s + 1)%Z by lia.
  destruct (s + 1 >=? 10 * (l + 1))%Z.
  2:{ exists (pointCounted g). unfold pointCounted. rewrite Hs.
      repeat split; simpl; auto. }
  assert (Hsc' : _scene (pointCounted g) = Some sc) by exact Hsc.
  assert (Htd' : _tubesDriver (pointCounted g) = Some td) by exact Htd.
  rewrite (increaseLevel_runs (pointCounted g) sc td Hsc' Htd').
  eexists. split; [reflexivity | ].
  cbn [_score _level _tubesDriver heap set_tubesDriver set_heap set_level pointCounted
       set_effects set_score _config option_map td_speed set_td_speed].
  rewrite Hs, Hl. fold a. cbn [option_map].
  split; [f_equal; lia | ]. split; [reflexivity | ]. split; [reflexivity | ].
  assert (Hnth : forall id e, In id (entities sc) -> nth_error (heap g) id = Some e ->
            isTube e || isBackground e = true ->
            nth_error (update_all (accelerate a) (_tubes td)
                         (update_all (accelerate a)
                            (filter (moving (heap g)) (entities sc)) (heap g))) id
            = Some (if mem id (_tubes td) then accelerate a (accelerate a e)
                    else accelerate a e)).
  { intros id e Hin He Hkind.
    assert (Hmv : moving (heap g) id = true) by (unfold moving; rewrite He; exact Hkind).
    rewrite (nth_error_update_all _ _ _ _ Hndt).
    rewrite (nth_error_update_all _ _ _ _ (NoDup_filter _ Hnd)).
    rewrite mem_filter, (mem_true_In _ _ Hin), Hmv, He. simpl.
    destruct (mem id (_tubes td)); reflexivity. }
  split.
  - intros id e Hin He Hbg.
    rewrite (Hnth id e Hin He) by (rewrite Hbg; apply orb_true_r).
    destruct (mem id (_tubes td)) eqn:Em; [ | reflexivity].
    exfalso. unfold mem in Em. apply existsb_exists in Em. destruct Em as (j & Hj & Ej).
    apply Nat.eqb_eq in Ej. subst j. pose proof (Htubes id e Hj He) as Ht.
    unfold isTube, isBackground in *. destruct (extra e); discriminate.
  - intros id e Hin He Ht.
    rewrite (Hnth id e Hin He) by (rewrite Ht; reflexivity).
    destruct (mem id (_tubes td)); reflexivity.
Qed.

Lemma tenth_point_raises_level_and_speeds_sample :
  exists g', scorePoint Sample.ninth = Ok tt g'
             /\ _score g' = Some 10%Z /\ _level g' = Some 1%Z
             /\ option_map td_speed (_tubesDriver g') = Some (100 + 5).
Proof.
  destruct (tenth_point_raises_level_and_speeds Sample.ninth
              (mkScene 400 300 [0; 1; 2; 3; 4; 5; 6; 7]%nat)
              (mkTubesDriver 100 50 20 80 120 150 250 [7%nat]) 9 0
              eq_refl eq_refl eq_refl eq_refl)
    as (g' & Hrun & Hscore & Hlevel & Hspeed & _).
  - repeat constructor; simpl; intuition discriminate.
  - repeat constructor; simpl; intuition discriminate.
  - intros id e [<- | []] He. vm_compute in He. inversion He. reflexivity.
  - exists g'. repeat split; assumption.
Defined.



(** ** [Game._generateBackgrounds] *)

Section Tiling.
(** The scene is [W] wide and [H] high, and a tile is [w] wide. *)
Variables (cfg : Config) (W H : Q).

Let w : Q := H * (background_width cfg / background_height cfg).

Lemma new_Background_runs (g : Game) (ents : list nat) (x0 : Q) :
  _scene g = Some (mkScene W H ents) ->
  new_Background x0 0 w H (background_speed cfg) g
  = Ok (List.length (heap g))
       (set_scene (Some (mkScene W H (ents ++ [List.length (heap g)])))
          (set_heap (heap g ++ [tile cfg H x0]) g)).
Proof.
  intros Hsc. unfold new_Background.
  run_to (List.length (heap g)) (set_heap (heap g ++ [tile cfg H x0]) g).
  assert (Hsc' : _scene (set_heap (heap g ++ [tile cfg H x0]) g) = Some (mkScene W H ents))
    by exact Hsc.
  unfold Scene_add, modify_scene.
  match goal with
  | |- bind (bind scene ?k1) ?k2 ?G = _ =>
      unfold bind at 1; rewrite (bind_ok scene k1 G _ _ (scene_ok G _ Hsc'))
  end.
  reflexivity.
Qed.

Lemma generate_from (fuel : nat) :
  forall (g : Game) (ents : list nat) (l : nat) (xl : Q),
    _config g = cfg ->
    _scene g = Some (mkScene W H ents) ->
    nth_error (heap g) l = Some (tile cfg H xl) ->
    generate fuel (Some l) g
    = match more_tiles cfg W H fuel xl with
      | Some xs => Ok tt (grown cfg W H g ents xs)
      | None => Hang
      end.
Proof.
  induction fuel as [|fuel IH]; intros g ents l xl Hcfg Hsc Hl;
    rewrite generate_unfold; run_with (scene_ok g _ Hsc);
    rewrite bind_assoc; run_with (entity_ok g l _ Hl);
    match goal with |- bind (ret ?v) _ ?G = _ => run_to v G end;
    cbn [initialX tile extra scene_width].
  - change (more_tiles cfg W H 0 xl) with (if Qltb xl W then @None (list Q) else Some []).
    destruct (Qltb xl W); [reflexivity | ].
    unfold ret, grown; simpl; rewrite !app_nil_r; destruct g; simpl in *.
    rewrite Hsc; reflexivity.
  - change (more_tiles cfg W H (S fuel) xl)
      with (if Qltb xl W
            then option_map (cons (xl + w)) (more_tiles cfg W H fuel (xl + w))
            else Some []).
    destruct (Qltb xl W).
    2:{ unfold ret, grown; simpl; rewrite !app_nil_r; destruct g; simpl in *.
        rewrite Hsc; reflexivity. }
    rewrite bind_assoc. run_with (entity_ok g l _ Hl).
    match goal with |- bind (ret ?v) _ ?G = _ => run_to v G end.
    cbn [x width tile]. run_to g g. rewrite Hcfg.
    change (tileWidth cfg (mkScene W H ents)) with w.
    cbn [scene_height].
    run_with (new_Background_runs g ents (xl + w) Hsc).
    match goal with
    | |- bind (modify ?f) _ ?G = _ => run_to tt (f G)
    end.
    rewrite (IH _ (ents ++ [List.length (heap g)])%list _ (xl + w)).
    + destruct (more_tiles cfg W H fuel (xl + w)) as [xs|]; [ | reflexivity].
      cbn [option_map]. f_equal. unfold grown.
      cbn [heap _backgrounds set_backgrounds set_scene set_heap].
      cbn [List.length map]. rewrite !length_app. cbn [List.length].
      rewrite Nat.add_1_r. cbn [seq].
      rewrite <- !app_assoc. reflexivity.
    + exact Hcfg.
    + reflexivity.
    + cbn [heap set_backgrounds set_scene set_heap].
      rewrite nth_error_app2 by apply Nat.le_refl.
      rewrite Nat.sub_diag. reflexivity.
Qed.

End Tiling.

Lemma contiguous_covers (tiles : list Entity) :
  forall (x0 p : Q),
    contiguous_from x0 tiles ->
    Forall (fun t => 0 <= width t) tiles ->
    x0 <= p -> p <= right_end x0 tiles -> tiles <> [] ->
    exists t, In t tiles /\ x t <= p /\ p <= x t + width t.
Proof.
  induction tiles as [|t rest IH]; intros x0 p Hc Hw Hlo Hhi Hne; [congruence | ].
  destruct Hc as [Hx Hc]. inversion Hw as [|t' rest' Hwt Hwr]; subst t' rest'.
  destruct (Qlt_le_dec (x t + width t) p) as [Hlt | Hle].
  - destruct rest as [|t2 rest2].
    + simpl in Hhi. exfalso. apply (Qlt_not_le _ _ Hlt Hhi).
    + destruct (IH (x t + width t) p Hc Hwr (Qlt_le_weak _ _ Hlt) Hhi) as (u & Hu & Hu1 & Hu2);
        [discriminate | ].
      exists u. split; [right; exact Hu | split; assumption].
  - exists t. split; [left; reflexivity | ]. split; [rewrite Hx; exact Hlo | exact Hle].
Qed.

Section TilingFacts.
Variables (cfg : Config) (W H : Q).

Let w : Q := H * (background_width cfg / background_height cfg).

Hypothesis w_pos : 0 < w.

Lemma more_tiles_O (xl : Q) :
  more_tiles cfg W H O xl = if Qltb xl W then None else Some [].
Proof. reflexivity. Qed.

Lemma more_tiles_S (fuel : nat) (xl : Q) :
  more_tiles cfg W H (S fuel) xl
  = if Qltb xl W then option_map (cons (xl + w)) (more_tiles cfg W H fuel (xl + w))
    else Some [].
Proof. reflexivity. Qed.

Lemma more_tiles_enough (fuel : nat) :
  forall xl, W - xl <= inject_Z (Z.of_nat fuel) * w ->
             exists xs, more_tiles cfg W H fuel xl = Some xs.
Proof.
  pose proof more_tiles_S as HS. pose proof w_pos as Hw. clearbody w.
  induction fuel as [|fuel IH]; intros xl Hb.
  - rewrite more_tiles_O. destruct (Qltb xl W) eqn:E; [ | exists []; reflexivity].
    apply Qltb_true in E. exfalso. change (inject_Z (Z.of_nat 0)) with 0 in Hb. lra.
  - rewrite HS. destruct (Qltb xl W) eqn:E; [ | exists []; reflexivity].
    destruct (IH (xl + w)) as [xs Hxs].
    + rewrite Nat2Z.inj_succ in Hb. unfold Z.succ in Hb. rewrite inject_Z_plus in Hb.
      change (inject_Z 1) with 1 in Hb. lra.
    + exists ((xl + w) :: xs). rewrite Hxs. reflexivity.
Qed.

Lemma more_tiles_contiguous (fuel : nat) :
  forall xl xs, more_tiles cfg W H fuel xl = Some xs ->
                contiguous_from (xl + w) (map (tile cfg H) xs)
                /\ W <= right_end (xl + w) (map (tile cfg H) xs) - w.
Proof.
  induction fuel as [|fuel IH]; intros xl xs Hm.
  - rewrite more_tiles_O in Hm.
    destruct (Qltb xl W) eqn:E; [discriminate | ]. inversion Hm; subst xs.
    apply Qltb_false in E. simpl. split; [exact I | lra].
  - rewrite more_tiles_S in Hm. destruct (Qltb xl W) eqn:E.
    + destruct (more_tiles cfg W H fuel (xl + w)) as [xs'|] eqn:E'; [ | discriminate].
      inversion Hm; subst xs. destruct (IH _ _ E') as [Hc Hr].
      simpl. fold w. split; [split; [reflexivity | exact Hc] | exact Hr].
    + inversion Hm; subst xs. apply Qltb_false in E. simpl. split; [exact I | lra].
Qed.

End TilingFacts.

(** With tiles that are not wider than 0 and a scene wider than 0 the
    loop never ends, whatever the bound on the number of tiles. *)
Lemma more_tiles_never (cfg : Config) (W H : Q) (fuel : nat) :
  H * (background_width cfg / background_height cfg) <= 0 ->
  forall xl, xl < W -> more_tiles cfg W H fuel xl = None.
Proof.
  intros Hw. induction fuel as [|fuel IH]; intros xl Hlt.
  - rewrite more_tiles_O. apply Qltb_true in Hlt. rewrite Hlt. reflexivity.
  - rewrite more_tiles_S. pose proof Hlt as Hlt'. apply Qltb_true in Hlt'. rewrite Hlt'.
    rewrite IH; [reflexivity | ].
    set (w := H * (background_width cfg / background_height cfg)) in *. lra.
Qed.

Lemma forEach_Entity_delete (ids : list nat) :
  forall (g : Game) (W H : Q) (ents : list nat),
    _scene g = Some (mkScene W H ents) ->
    forEach Entity_delete ids g
    = Ok tt (set_scene (Some (mkScene W H (without ids ents))) g).
Proof.
  induction ids as [|id rest IH]; intros g W H ents Hsc.
  - simpl. unfold ret. destruct g; simpl in *. rewrite Hsc. reflexivity.
  - simpl.
    assert (Hdel : Entity_delete id g
                   = Ok tt (set_scene (Some (mkScene W H
                              (filter (fun i => negb (Nat.eqb i id)) ents))) g)).
    { unfold Entity_delete, modify. rewrite Hsc. reflexivity. }
    run_with Hdel.
    match goal with
    | |- forEach _ _ ?G = _ =>
        rewrite (IH G W H (filter (fun i => negb (Nat.eqb i id)) ents) eq_refl)
    end.
    reflexivity.
Qed.

(** [_generateBackgrounds] on a game with a scene [W] wide and [H] high:
    the old tiles leave the scene and new ones are added, beginning at
    [x = 0], until one starts at [W] or beyond. *)
Lemma generateBackgrounds_runs (g : Game) (W H : Q) (ents : list nat) :
  _scene g = Some (mkScene W H ents) ->
  let w := H * (background_width (_config g) / background_height (_config g)) in
  let g1 := set_scene (Some (mkScene W H (without (_backgrounds g) ents))) g in
  _generateBackgrounds g
  = match tiles_needed w W with
    | O => Hang
    | S n =>
        match more_tiles (_config g) W H n 0 with
        | Some xs => Ok tt (grown (_config g) W H g1 (without (_backgrounds g) ents) (0 :: xs))
        | None => Hang
        end
    end.
Proof.
  intros Hsc w g1. unfold _generateBackgrounds.
  run_to g g. run_with (forEach_Entity_delete (_backgrounds g) g W H ents Hsc).
  fold g1. run_with (scene_ok g1 _ eq_refl).
  change (tileWidth (_config g) (mkScene W H (without (_backgrounds g) ents))) with w.
  cbn [scene_width].
  destruct (tiles_needed w W) as [|n].
  - rewrite generate_unfold. run_with (scene_ok g1 _ eq_refl).
    run_to true g1. reflexivity.
  - rewrite generate_unfold. run_with (scene_ok g1 _ eq_refl).
    run_to true g1. run_to 0 g1. run_to g1 g1.
    change (tileWidth (_config g1) (mkScene W H (without (_backgrounds g) ents))) with w.
    cbn [scene_height]. change (_config g1) with (_config g).
    run_with (new_Background_runs (_config g) W H g1 _ 0 eq_refl).
    match goal with
    | |- bind (modify ?f) _ ?G = _ => run_to tt (f G)
    end.
    rewrite (generate_from (_config g) W H n _
               (without (_backgrounds g) ents ++ [List.length (heap g1)])%list
               (List.length (heap g1)) 0).
    + destruct (more_tiles (_config g) W H n 0) as [xs|]; [ | reflexivity].
      f_equal. unfold grown.
      cbn [heap _backgrounds set_backgrounds set_scene set_heap].
      cbn [List.length map]. rewrite !length_app. cbn [List.length].
      rewrite Nat.add_1_r. cbn [seq].
      rewrite <- !app_assoc. reflexivity.
    + reflexivity.
    + reflexivity.
    + cbn [heap set_backgrounds set_scene set_heap].
      rewrite nth_error_app2 by apply Nat.le_refl.
      rewrite Nat.sub_diag. reflexivity.
Qed.

Lemma enough_tiles (W w : Q) :
  0 < w -> W - 0 <= inject_Z (Z.of_nat (Z.to_nat (Qceiling (W / w)))) * w.
Proof.
  intros Hw.
  assert (H1 : W / w <= inject_Z (Z.of_nat (Z.to_nat (Qceiling (W / w))))).
  { apply Qle_trans with (inject_Z (Qceiling (W / w))); [apply Qle_ceiling | ].
    rewrite <- Zle_Qle. lia. }
  assert (H2 : W == W / w * w).
  { field. intros E. rewrite E in Hw. apply (Qlt_irrefl 0 Hw). }
  assert (H3 : W / w * w <= inject_Z (Z.of_nat (Z.to_nat (Qceiling (W / w)))) * w).
  { apply Qmult_le_compat_r; [exact H1 | apply Qlt_le_weak; exact Hw]. }
  unfold Qminus. rewrite H2 at 1. lra.
Qed.

(** C9: when the width given to the tiles,
    [scene.height * (background.width / background.height)], is
    positive, [_generateBackgrounds] returns, and the tiles it has
    created (added to the heap, to the scene and to [_backgrounds]) are
    contiguous: the first starts at [x = 0], each next one where the one
    before it ends; every point of [[0, scene.width]] lies on one of
    them. *)
Theorem generated_backgrounds_tile_the_scene :
  forall (g : Game) (sc : Scene),
    _scene g = Some sc ->
    0 < tileWidth (_config g) sc ->
    exists (g' : Game) (tiles : list Entity),
      _generateBackgrounds g = Ok tt g'
      /\ heap g' = (heap g ++ tiles)%list
      /\ _backgrounds g'
         = (_backgrounds g ++ seq (List.length (heap g)) (List.length tiles))%list
      /\ option_map entities (_scene g')
         = Some (without (_backgrounds g) (entities sc)
                   ++ seq (List.length (heap g)) (List.length tiles))%list
      /\ Forall (fun t => isBackground t = true
                          /\ width t = tileWidth (_config g) sc) tiles
      /\ contiguous_from 0 tiles
      /\ forall p, 0 <= p -> p <= scene_width sc ->
                   exists t, In t tiles /\ x t <= p /\ p <= x t + width t.
Proof.
  intros g [W H ents] Hsc Hw. unfold tileWidth in Hw. cbn [scene_height] in Hw.
  rewrite (generateBackgrounds_runs g W H ents Hsc).
  set (w := H * (background_width (_config g) / background_height (_config g))) in *.
  unfold tiles_needed. pose proof Hw as Hw'. apply Qltb_true in Hw'. rewrite Hw'.
  destruct (more_tiles_enough (_config g) W H Hw _ 0 (enough_tiles W w Hw)) as [xs Hxs].
  rewrite Hxs.
  destruct (more_tiles_contiguous (_config g) W H _ _ _ Hxs) as [Hc Hr]. fold w in Hc, Hr.
  exists (grown (_config g) W H
            (set_scene (Some (mkScene W H (without (_backgrounds g) ents))) g)
            (without (_backgrounds g) ents) (0 :: xs)),
         (map (tile (_config g) H) (0 :: xs)).
  split; [reflexivity | ]. split; [reflexivity | ].
  split; [unfold grown; cbn [_backgrounds set_backgrounds set_scene set_heap heap];
          rewrite length_map; reflexivity | ].
  split; [unfold grown; cbn [_scene set_backgrounds set_scene option_map entities heap set_heap];
          rewrite length_map; reflexivity | ].
  assert (Hall : Forall (fun t => isBackground t = true /\ width t = w)
                   (map (tile (_config g) H) (0 :: xs))).
  { apply Forall_forall. intros t Ht. apply in_map_iff in Ht.
    destruct Ht as (x0 & <- & _). split; reflexivity. }
  split; [exact Hall | ].
  assert (Hcont : contiguous_from 0 (map (tile (_config g) H) (0 :: xs))).
  { split; [reflexivity | exact Hc]. }
  split; [exact Hcont | ].
  intros p Hp0 HpW. cbn [scene_width] in HpW.
  apply (contiguous_covers _ 0 p Hcont); [ | exact Hp0 | | discriminate].
  - apply Forall_forall. intros t Ht.
    destruct (proj1 (Forall_forall _ _) Hall t Ht) as [_ Hwt]. rewrite Hwt.
    apply Qlt_le_weak. exact Hw.
  - change (right_end 0 (map (tile (_config g) H) (0 :: xs)))
      with (right_end (0 + w) (map (tile (_config g) H) xs)).
    lra.
Qed.

Lemma generated_backgrounds_tile_the_scene_witness :
  exists (g' : Game) (tiles : list Entity),
    _generateBackgrounds Sample.idle = Ok tt g'
    /\ heap g' = (heap Sample.idle ++ tiles)%list
    /\ contiguous_from 0 tiles
    /\ forall p, 0 <= p -> p <= 400 ->
                 exists t, In t tiles /\ x t <= p /\ p <= x t + width t.
Proof.
  destruct (generated_backgrounds_tile_the_scene Sample.idle
              (mkScene 400 300 [0; 1; 2; 3; 4; 5; 6]%nat) eq_refl)
    as (g' & tiles & Hrun & Hheap & _ & _ & _ & Hcont & Hcover).
  - reflexivity.
  - exists g', tiles. repeat split; assumption.
Defined.

(** ** [Game._loop] *)

Lemma update_keeps_scheduled (delta : Q) : keeps scheduled (_update delta).
Proof. frame. Qed.

Lemma loop_runs (g : Game) :
  let now := date_now g in
  let delta := seconds_since (_lastUpdate g) now in
  _loop g
  = match _update delta g with
    | Ok _ g1 =>
        if State_eqb (_currentState g1) PLAYING
        then match _scene g1 with
             | Some _ => Ok tt (ticked now g1)
             | None => Throw TypeError (set_effects (Clear :: effects g1) g1)
             end
        else Ok tt g1
    | Throw e g1 => Throw e g1
    | Hang => Hang
    end.
Proof.
  intros now delta. unfold _loop. run_to g g. fold now. fold delta.
  unfold bind at 1. destruct (_update delta g) as [[] g1 | e g1 |]; try reflexivity.
  run_to g1 g1. destruct (State_eqb (_currentState g1) PLAYING); [ | reflexivity].
  unfold when, _draw, Scene_draw, emit, scene, bind, get, modify, defined. simpl.
  destruct (_scene g1); reflexivity.
Qed.

(** ** [Game._resize] *)

#[local] Instance extends_preorder : PreOrder extends.
Proof.
  split.
  - intros g i e H. exact H.
  - intros a b c H1 H2 i e H. apply H2, H1, H.
Qed.

Lemma extends_app (g : Game) (l : list Entity) : extends g (set_heap (heap g ++ l) g).
Proof.
  intros i e H. simpl. rewrite nth_error_app1; [exact H | ].
  apply nth_error_Some. congruence.
Qed.

Ltac extends_same :=
  intros; try (apply extends_app);
  match goal with
  | |- extends ?g _ => intros i e H; simpl;
      repeat match goal with
             | |- context [match ?o with _ => _ end] => destruct o
             end; exact H
  end.

Lemma generate_keeps_progress (fuel : nat) :
  forall last, keeps progress (generate fuel last).
Proof.
  induction fuel as [|fuel IH]; intros last; rewrite generate_unfold; frame.
  apply IH.
Qed.

Lemma generate_keeps_pacing (fuel : nat) :
  forall last, keeps pacing (generate fuel last).
Proof.
  induction fuel as [|fuel IH]; intros last; rewrite generate_unfold; frame.
  apply IH.
Qed.

Lemma generate_extends (fuel : nat) :
  forall last, respects extends (generate fuel last).
Proof.
  induction fuel as [|fuel IH]; intros last; rewrite generate_unfold;
    autounfold with methods;
    repeat first [ respects_step | progress autounfold with methods ];
    try solve [extends_same].
  apply IH.
Qed.

Lemma resize_in_two_parts (g : Game) : _resize g = (resizeAndTile ;; redraw) g.
Proof.
  unfold _resize, resizeAndTile, redraw, bind, get, emit, modify. cbv beta zeta.
  destruct (Scene_resize _ _ _) as [[] g1 | |]; try reflexivity;
    destruct (_generateBackgrounds _) as [[] g2 | |]; reflexivity.
Qed.

Lemma generateBackgrounds_keeps_progress : keeps progress _generateBackgrounds.
Proof. unfold _generateBackgrounds. frame. apply generate_keeps_progress. Qed.

Lemma generateBackgrounds_keeps_pacing : keeps pacing _generateBackgrounds.
Proof. unfold _generateBackgrounds. frame. apply generate_keeps_pacing. Qed.

Lemma generateBackgrounds_extends : respects extends _generateBackgrounds.
Proof.
  unfold _generateBackgrounds. autounfold with methods.
  repeat first [ respects_step | progress autounfold with methods ];
    try solve [extends_same].
  apply generate_extends.
Qed.

Lemma resizeAndTile_keeps_progress : keeps progress resizeAndTile.
Proof. unfold resizeAndTile. frame. apply generateBackgrounds_keeps_progress. Qed.

Lemma resizeAndTile_keeps_pacing : keeps pacing resizeAndTile.
Proof. unfold resizeAndTile. frame. apply generateBackgrounds_keeps_pacing. Qed.

Lemma resizeAndTile_extends : respects extends resizeAndTile.
Proof.
  unfold resizeAndTile. autounfold with methods.
  repeat first [ respects_step | progress autounfold with methods ];
    try solve [extends_same].
  apply generateBackgrounds_extends.
Qed.

Lemma changeState_draws_overlay (loop : M unit) (s : State) (g : Game) :
  s <> PLAYING ->
  _changeState_with loop s g
  = Ok tt (set_effects (overlay s g :: Clear :: effects g) (set_currentState s g)).
Proof. intros H. destruct s; try reflexivity. congruence. Qed.

(** Outside [PLAYING] a resize leaves the progress of the game, the
    pending ticks and every entity as they were. *)
Lemma resize_outside_play (g g' : Game) :
  _currentState g <> PLAYING ->
  after (_resize g) = Some g' ->
  progress g' = progress g /\ pacing g' = pacing g /\ extends g g'.
Proof.
  intros Hs H. rewrite resize_in_two_parts in H.
  apply after_bind in H. destruct H as [(a & g1 & E1 & H) | (e & E & _)].
  - assert (A1 : after (resizeAndTile g) = Some g1) by (rewrite E1; reflexivity).
    pose proof (resizeAndTile_keeps_progress g g1 A1) as P1.
    pose proof (resizeAndTile_keeps_pacing g g1 A1) as P2.
    pose proof (resizeAndTile_extends g g1 A1) as P3.
    assert (Hs1 : _currentState g1 <> PLAYING).
    { unfold progress in P1. injection P1 as Hst _ _ _ _. rewrite Hst. exact Hs. }
    unfold redraw, _changeState in H. unfold bind, get in H.
    rewrite (changeState_draws_overlay _ _ g1 Hs1) in H. inversion H; subst g'.
    split; [ | split].
    + rewrite <- P1. unfold progress. simpl. reflexivity.
    + rewrite <- P2. reflexivity.
    + intros i e' He. apply P3. exact He.
  - assert (A1 : after (resizeAndTile g) = Some g') by (rewrite E; reflexivity).
    split; [ | split].
    + apply (resizeAndTile_keeps_progress g g' A1).
    + apply (resizeAndTile_keeps_pacing g g' A1).
    + apply (resizeAndTile_extends g g' A1).
Qed.

(** In [PLAYING] the redraw at the end of [_resize] is a run of [_loop]. *)
Lemma redraw_in_play (g : Game) :
  _currentState g = PLAYING ->
  redraw g = _loop (set_currentState PLAYING (set_effects (Clear :: effects g) g)).
Proof. intros H. unfold redraw, bind, get. rewrite H. reflexivity. Qed.

(** C8 fails while [PLAYING]: [_resize] ends with
    [_changeState(this._currentState)], whose [PLAYING] handler is
    [_loop()].  In the sample session a resize 100 ms after the start
    runs an update (the bird moves from y = 140 to y = 150), sets
    [_lastUpdate] and requests a second tick next to the one already
    pending; a resize 500 ms after the start ends the game.  In
    [LOADING], before the scene exists, the resize throws. *)
Theorem resize_during_play_runs_a_tick :
  _currentState Sample.playing = PLAYING
  /\ handle (Resize 1100 400 300) Sample.playing = Some (Ok tt Sample.resized)
  /\ bird_position Sample.playing = Some (100, 140)
  /\ bird_position Sample.resized = Some (100, 150)
  /\ pacing Sample.playing = (1%nat, Some 1000%Z)
  /\ pacing Sample.resized = (2%nat, Some 1100%Z)
  /\ option_map (fun o => option_map _currentState (after o))
       (handle (Resize 1500 400 300) Sample.playing) = Some (Some GAME_OVER)
  /\ option_map (fun o => match o with Throw e _ => Some e | _ => None end)
       (handle (Resize 500 400 300) Sample.launched) = Some (Some TypeError).
Proof. repeat split; vm_compute; reflexivity. Qed.

(** C2, the contract of one tick: [delta] is
    [(now - lastUpdate) / 1000]; [_update(delta)] runs whatever the
    state is; only when the state is [PLAYING] after it does the tick
    draw, set [_lastUpdate] to [now] and request the next tick. *)
Theorem loop_tick_contract :
  forall (g : Game),
    _loop g
    = match _update (inject_Z (date_now g
                               - match _lastUpdate g with Some t => t | None => 0 end)
                     / 1000) g with
      | Ok _ g1 =>
          if State_eqb (_currentState g1) PLAYING
          then match _scene g1 with
               | Some _ => Ok tt (ticked (date_now g) g1)
               | None => Throw TypeError (set_effects (Clear :: effects g1) g1)
               end
          else Ok tt g1
      | Throw e g1 => Throw e g1
      | Hang => Hang
      end.
Proof. intros g. apply loop_runs. Qed.

Lemma run_reachable (evs : list Event) :
  forall g g', run evs g = Some g' -> reachable g g'.
Proof.
  assert (Hgen : forall g0 g g', reachable g0 g -> run evs g = Some g' -> reachable g0 g').
  { induction evs as [|ev rest IH]; intros g0 g g' Hr H; simpl in H.
    - inversion H; subst. exact Hr.
    - destruct (handle ev g) as [o|] eqn:Eh; [ | discriminate].
      destruct (after o) as [g1|] eqn:Ea; [ | discriminate].
      apply (IH g0 g1 g'); [ | exact H].
      apply (reach_step g0 g ev o g1 Hr Eh Ea). }
  intros g g' H. apply (Hgen g g g'); [apply reach_start | exact H].
Qed.

(** C2 fails in its last part: the sample session is resized while
    [PLAYING], which requests a second tick; when the first one ends the
    game, the second is still pending, and it runs a full update in
    [GAME_OVER]: the bird falls on and [gameOver()] is called again. *)
Theorem pending_tick_runs_after_game_over :
  reachable Sample.launched Sample.fallen
  /\ _currentState Sample.fallen = GAME_OVER
  /\ scheduled Sample.fallen = 1%nat
  /\ handle (Frame 11016) Sample.fallen = Some (Ok tt Sample.late)
  /\ bird_position Sample.fallen = Some (100, 99150)
  /\ bird_position Sample.late = Some (100, 37079632 # 125)
  /\ effects Sample.late
     = DrawWithScores "Game over" (Some 1%Z) 1 :: Clear :: Play "dieSound"
         :: effects Sample.fallen.
Proof.
  split.
  { apply (run_reachable [Loaded 0; Action 1000; Resize 1100 400 300; Frame 11000]).
    vm_compute. reflexivity. }
  repeat split; vm_compute; reflexivity.
Qed.

(** ** When no resize happens during play, the loop stops for good *)

Lemma loop_requests_at_most_one (g g' : Game) :
  after (_loop g) = Some g' -> requested_at_most_one g g'.
Proof.
  rewrite loop_runs. intros H.
  pose proof (update_keeps_scheduled
                (seconds_since (_lastUpdate g) (date_now g)) g) as K.
  destruct (_update _ g) as [[] g1 | e g1 |]; [ | | discriminate H].
  - specialize (K g1 eq_refl).
    destruct (State_eqb (_currentState g1) PLAYING) eqn:Es.
    + apply State_eqb_eq in Es. destruct (_scene g1).
      * inversion H; subst g'. right. simpl. split; [exact Es | rewrite K; reflexivity].
      * inversion H; subst g'. left. simpl. exact K.
    + inversion H; subst g'. left. exact K.
  - inversion H; subst g'. left. apply K. reflexivity.
Qed.

Lemma changeState_requests_at_most_one (s : State) (g g' : Game) :
  after (_changeState s g) = Some g' -> requested_at_most_one g g'.
Proof.
  intros H. destruct (State_eqb s PLAYING) eqn:Es.
  - apply State_eqb_eq in Es. subst s.
    change (_changeState PLAYING g)
      with (_loop (set_currentState PLAYING (set_effects (Clear :: effects g) g))) in H.
    apply loop_requests_at_most_one in H. exact H.
  - assert (Hs : s <> PLAYING) by (intros ->; discriminate Es).
    unfold _changeState in H. rewrite (changeState_draws_overlay _ _ g Hs) in H.
    inversion H; subst g'. left. reflexivity.
Qed.

Lemma createEntities_keeps_pacing : keeps pacing _createEntities.
Proof. unfold _createEntities. frame; apply generateBackgrounds_keeps_pacing. Qed.

Lemma reset_keeps_scheduled (g g' : Game) :
  after (reset g) = Some g' -> scheduled g' = scheduled g.
Proof.
  unfold reset, _changeState. intros H.
  assert (Hidle : IDLE <> PLAYING) by discriminate.
  rewrite (bind_ok _ _ _ _ _ (changeState_draws_overlay _ IDLE g Hidle)) in H.
  unfold _configurePhysicsEngine, _configureCollisionEngine, _configureScene in H.
  repeat match type of H with
         | after (bind (modify ?f) ?k ?G) = _ =>
             rewrite (bind_ok (modify f) k G (f G) tt eq_refl) in H
         | after (bind (ret tt) ?k ?G) = _ =>
             rewrite (bind_ok (ret tt) k G G tt eq_refl) in H
         end.
  apply after_bind in H. destruct H as [(a & g1 & E1 & H) | (e & E & _)].
  - assert (A1 : after (_resize
        (set_scene
           (Some (mkScene (canvas_width (_config g)) (canvas_height (_config g)) []))
           (set_physicsEngine (Some (gravitation (_config g)))
              (set_level (Some 0%Z)
                 (set_score (Some 0%Z)
                    (set_effects (overlay IDLE g :: Clear :: effects g)
                       (set_currentState IDLE g))))))) = Some g1).
    { cbv beta in E1. simpl in E1. simpl. rewrite E1. reflexivity. }
    apply resize_outside_play in A1; [ | discriminate].
    destruct A1 as (_ & P & _).
    apply createEntities_keeps_pacing in H. unfold pacing in *.
    injection H as H _. injection P as P _. rewrite H, P. reflexivity.
  - assert (A1 : after (_resize
        (set_scene
           (Some (mkScene (canvas_width (_config g)) (canvas_height (_config g)) []))
           (set_physicsEngine (Some (gravitation (_config g)))
              (set_level (Some 0%Z)
                 (set_score (Some 0%Z)
                    (set_effects (overlay IDLE g :: Clear :: effects g)
                       (set_currentState IDLE g))))))) = Some g').
    { cbv beta in E. simpl in E. simpl. rewrite E. reflexivity. }
    apply resize_outside_play in A1; [ | discriminate].
    destruct A1 as (_ & P & _). unfold pacing in P. injection P as P _. exact P.
Qed.

Lemma start_requests_at_most_one (g g' : Game) :
  after (start g) = Some g' -> requested_at_most_one g g'.
Proof.
  unfold start. intros H.
  apply after_bind in H. destruct H as [(a & g1 & E1 & H) | (e & E & _)].
  - assert (K : scheduled g1 = scheduled g).
    { apply reset_keeps_scheduled. rewrite E1. reflexivity. }
    unfold emit in H.
    repeat match type of H with
           | after (bind (modify ?f) ?k ?G) = _ =>
               rewrite (bind_ok (modify f) k G (f G) tt eq_refl) in H
           | after (bind get ?k ?G) = _ =>
               rewrite (bind_ok get k G G G eq_refl) in H
           end.
    apply changeState_requests_at_most_one in H.
    unfold requested_at_most_one in *. simpl in H. rewrite K in H. exact H.
  - left. apply reset_keeps_scheduled. rewrite E. reflexivity.
Qed.

Lemma flapBird_keeps_pacing_and_state :
  keeps (fun g => (scheduled g, _currentState g)) flapBird.
Proof. frame. Qed.

Lemma settled_from_idle (g g' : Game) :
  scheduled g = 0%nat -> requested_at_most_one g g' -> settled g'.
Proof.
  intros H0 [H | [Hs H]]; [left | right]; rewrite H0 in H; auto.
Qed.

Lemma at_time_runs (now : Z) (m : M unit) (g : Game) :
  at_time now m g = m (set_date_now now g).
Proof. reflexivity. Qed.

Lemma loaded_keeps_settled (now : Z) (g g' : Game) :
  settled g -> _currentState g = LOADING ->
  after (at_time now reset g) = Some g' -> settled g'.
Proof.
  intros Hset Es Ha. rewrite at_time_runs in Ha.
  apply reset_keeps_scheduled in Ha. left. rewrite Ha. simpl.
  destruct Hset as [H | [H _]]; [exact H | congruence].
Qed.

Lemma handleAction_runs (g : Game) :
  _handleAction g
  = match _currentState g with
    | LOADING => Ok tt g
    | IDLE | GAME_OVER => start g
    | PLAYING => flapBird g
    end.
Proof.
  unfold _handleAction, bind, get. destruct (_currentState g); reflexivity.
Qed.

Lemma action_keeps_settled (now : Z) (g g' : Game) :
  settled g -> after (at_time now _handleAction g) = Some g' -> settled g'.
Proof.
  intros Hset Ha. rewrite at_time_runs, handleAction_runs in Ha.
  change (_currentState (set_date_now now g)) with (_currentState g) in Ha.
  destruct (_currentState g) eqn:Es.
  - inversion Ha; subst g'. destruct Hset as [H | [H _]]; [left; exact H | congruence].
  - apply start_requests_at_most_one in Ha.
    apply (settled_from_idle (set_date_now now g)); [ | exact Ha].
    destruct Hset as [H | [H _]]; [exact H | congruence].
  - apply flapBird_keeps_pacing_and_state in Ha. injection Ha as Hsch Hst.
    simpl in Hsch, Hst. unfold settled in *. rewrite Hsch, Hst. exact Hset.
  - apply start_requests_at_most_one in Ha.
    apply (settled_from_idle (set_date_now now g)); [ | exact Ha].
    destruct Hset as [H | [H _]]; [exact H | congruence].
Qed.

Lemma resize_keeps_settled (g g' : Game) :
  settled g -> _currentState g <> PLAYING ->
  after (_resize g) = Some g' -> settled g'.
Proof.
  intros Hset Hs Ha. apply resize_outside_play in Ha; [ | exact Hs].
  destruct Ha as (_ & P & _). unfold pacing in P. injection P as P _.
  left. rewrite P. destruct Hset as [H | [H _]]; [exact H | congruence].
Qed.

Lemma tick_keeps_settled (g g' : Game) :
  scheduled g = 0%nat -> after (_loop g) = Some g' -> settled g'.
Proof.
  intros H0 Ha. apply loop_requests_at_most_one in Ha.
  apply (settled_from_idle g g' H0 Ha).
Qed.

Lemma handle_keeps_settled (ev : Event) (g g' : Game) (o : Outcome unit) :
  settled g -> calm ev g -> handle ev g = Some o -> after o = Some g' -> settled g'.
Proof.
  intros Hset Hcalm Hh Ha. destruct ev as [now | now | now cw ch | now].
  - unfold handle in Hh. destruct (_currentState g) eqn:Es; try discriminate.
    destruct (_scene g); try discriminate.
    injection Hh as <-. apply (loaded_keeps_settled now g g' Hset Es Ha).
  - unfold handle in Hh. injection Hh as <-.
    apply (action_keeps_settled now g g' Hset Ha).
  - unfold handle in Hh. injection Hh as <-.
    apply (resize_keeps_settled
             (set_canvas (mkCanvas cw ch (cv_width (_canvas g)) (cv_height (_canvas g)))
                (set_date_now now g)) g').
    + exact Hset.
    + exact Hcalm.
    + exact Ha.
  - unfold handle in Hh. destruct (scheduled g) as [|n] eqn:En; [discriminate | ].
    injection Hh as <-.
    apply (tick_keeps_settled (set_scheduled n (set_date_now now g)) g').
    + simpl. destruct Hset as [H | [_ H]]; congruence.
    + exact Ha.
Qed.

(** X1: In an execution in which no resize arrives during play, a game that
    is not [PLAYING] has no tick pending: no frame callback can run, and
    the simulation stands still until the next primary action. *)
Lemma loop_stops_when_play_ends (g0 g : Game) :
  settled g0 ->
  reachable_calmly g0 g ->
  settled g
  /\ (_currentState g <> PLAYING ->
      scheduled g = 0%nat /\ forall now, handle (Frame now) g = None).
Proof.
  intros H0 Hr.
  assert (Hs : settled g).
  { induction Hr as [|g ev o g' Hr IH Hc Hh Ha]; [exact H0 | ].
    apply (handle_keeps_settled ev g g' o IH Hc Hh Ha). }
  split; [exact Hs | ]. intros Hnp.
  destruct Hs as [H | [H _]]; [ | congruence].
  split; [exact H | ]. intros now. simpl. rewrite H. reflexivity.
Qed.

Lemma loop_stops_when_play_ends_witness :
  settled Sample.over
  /\ (_currentState Sample.over <> PLAYING ->
      scheduled Sample.over = 0%nat /\ forall now, handle (Frame now) Sample.over = None).
Proof.
  apply (loop_stops_when_play_ends Sample.launched Sample.over).
  - left. reflexivity.
  - apply (calm_step _ Sample.playing (Frame 11000)
             (at_time 11000 (modify (set_scheduled 0) ;; _loop) Sample.playing));
      [ | exact I | reflexivity | vm_compute; reflexivity].
    apply (calm_step _ Sample.idle (Action 1000)
             (at_time 1000 _handleAction Sample.idle));
      [ | exact I | reflexivity | vm_compute; reflexivity].
    apply (calm_step _ Sample.launched (Loaded 0) (at_time 0 reset Sample.launched));
      [ | exact I | reflexivity | vm_compute; reflexivity].
    apply calm_start.
Defined.

(** ** [Game._generateBackgrounds]: when the loop cannot end *)

(** Positive sprite dimensions and a positive scene height give tiles of
    positive width. *)
Lemma tile_width_positive (cfg : Config) (sc : Scene) :
  0 < background_width cfg -> 0 < background_height cfg -> 0 < scene_height sc ->
  0 < tileWidth cfg sc.
Proof.
  intros Hw Hh Hs. unfold tileWidth.
  apply Qmult_lt_0_compat; [exact Hs | ].
  apply Qlt_shift_div_l; [exact Hh | ]. lra.
Qed.

(** X2: With tiles that are not wider than 0 in a scene wider than 0, no
    tile ever starts at the scene width or beyond: [_generateBackgrounds]
    does not return. *)
Lemma generateBackgrounds_never_returns (g : Game) (W H : Q) (ents : list nat) :
  _scene g = Some (mkScene W H ents) ->
  H * (background_width (_config g) / background_height (_config g)) <= 0 ->
  0 < W ->
  _generateBackgrounds g = Hang
  /\ forall fuel, more_tiles (_config g) W H fuel 0 = None.
Proof.
  intros Hsc Hw HW. split.
  - rewrite (generateBackgrounds_runs g W H ents Hsc). unfold tiles_needed.
    apply Qltb_false in Hw. rewrite Hw.
    rewrite (more_tiles_never (_config g) W H 0); [reflexivity | | exact HW].
    apply Qltb_false. exact Hw.
  - intros fuel. apply more_tiles_never; [exact Hw | exact HW].
Qed.

Lemma generateBackgrounds_never_returns_witness :
  _generateBackgrounds (set_scene (Some (mkScene 400 0 [])) Sample.idle) = Hang
  /\ forall fuel,
       more_tiles (_config (set_scene (Some (mkScene 400 0 [])) Sample.idle)) 400 0 fuel 0
       = None.
Proof.
  apply (generateBackgrounds_never_returns
           (set_scene (Some (mkScene 400 0 [])) Sample.idle) 400 0 []).
  - reflexivity.
  - vm_compute. congruence.
  - reflexivity.
Defined.

(** * Further properties of [Game] and [Bird] *)

(** ** Reading a run backwards *)

Lemma bind_ok_inv {A B} (m : M A) (k : A -> M B) (g g' : Game) (b : B) :
  bind m k g = Ok b g' -> exists a g1, m g = Ok a g1 /\ k a g1 = Ok b g'.
Proof.
  unfold bind. destruct (m g) as [a g1 | e g1 |]; intros H; try discriminate H.
  exists a, g1. split; [reflexivity | exact H].
Qed.

Lemma ok_after {A} (o : Outcome A) (a : A) (g : Game) : o = Ok a g -> after o = Some g.
Proof. intros ->. reflexivity. Qed.

(** ** The state during a tick *)

#[local] Instance stays_or_ends_preorder : PreOrder stays_or_ends.
Proof.
  split.
  - intros g. left. reflexivity.
  - intros a b c [H1 | H1] [H2 | H2]; unfold stays_or_ends; rewrite ?H2, ?H1; auto.
Qed.

Ltac frame_by tac :=
  unfold keeps; autounfold with methods;
  repeat first
    [ respects_step
    | progress autounfold with methods ];
  try solve [ tac ].

Ltac stays_or_ends_solve :=
  first [ discriminate
        | intros; left; simpl;
          repeat match goal with
                 | |- context [match ?o with _ => _ end] => destruct o
                 end; reflexivity
        | intros; right; reflexivity ].

Lemma update_stays_or_ends (delta : Q) : respects stays_or_ends (_update delta).
Proof. frame_by stays_or_ends_solve. Qed.

Lemma loop_stays_or_ends : respects stays_or_ends _loop.
Proof.
  intros g g' H. rewrite loop_runs in H.
  pose proof (update_stays_or_ends (seconds_since (_lastUpdate g) (date_now g)) g) as K.
  destruct (_update _ g) as [[] g1 | e g1 |]; [ | | discriminate H].
  - specialize (K g1 eq_refl).
    destruct (State_eqb (_currentState g1) PLAYING); [destruct (_scene g1) | ];
      inversion H; subst g'; exact K.
  - inversion H; subst g'. apply K. reflexivity.
Qed.

(** ** What building the scene leaves alone

    A relation that does not look at the entities, the scene, the tiles,
    the canvas, the effects, the physics engine, the tube driver or the
    bird is respected by everything [reset] does after it has set the
    state, the score and the level. *)

Section Layout.
Context (R : Game -> Game -> Prop) {R_pre : PreOrder R}.
Hypothesis R_heap : forall g h, R g (set_heap (heap g ++ h) g).
Hypothesis R_scene : forall g sc, R g (set_scene sc g).
Hypothesis R_backgrounds : forall g l, R g (set_backgrounds l g).
Hypothesis R_canvas : forall g c, R g (set_canvas c g).
Hypothesis R_effects : forall g l, R g (set_effects l g).
Hypothesis R_physics : forall g p, R g (set_physicsEngine p g).
Hypothesis R_driver : forall g d, R g (set_tubesDriver d g).
Hypothesis R_bird : forall g b, R g (set_bird b g).

Ltac layout_solve :=
  first [ apply R_heap | apply R_scene | apply R_backgrounds | apply R_canvas
        | apply R_effects | apply R_physics | apply R_driver | apply R_bird
        | reflexivity
        | intros g; first [ apply R_heap | apply R_scene | apply R_backgrounds
                          | apply R_canvas | apply R_effects | apply R_physics
                          | apply R_driver | apply R_bird
                          | destruct (_scene g); [apply R_scene | reflexivity] ]
        | intros g l; apply R_heap ].

Lemma generate_respects (fuel : nat) :
  forall last, respects R (generate fuel last).
Proof.
  induction fuel as [|fuel IH]; intros last; rewrite generate_unfold;
    frame_by layout_solve.
  apply IH.
Qed.

Lemma generateBackgrounds_respects : respects R _generateBackgrounds.
Proof.
  unfold _generateBackgrounds. frame_by layout_solve. apply generate_respects.
Qed.

Lemma resizeAndTile_respects : respects R resizeAndTile.
Proof.
  unfold resizeAndTile. frame_by layout_solve. apply generateBackgrounds_respects.
Qed.

Lemma createEntities_respects : respects R _createEntities.
Proof.
  unfold _createEntities. frame_by layout_solve; apply generateBackgrounds_respects.
Qed.

(** With a loop that respects [R], so does every change of state, and
    with it [_resize]. *)
Hypothesis R_state : forall g s, R g (set_currentState s g).
Hypothesis R_loop : respects R _loop.

Lemma changeState_respects (s : State) : respects R (_changeState s).
Proof.
  unfold _changeState. apply respects_changeState_with.
  - exact R_pre.
  - intros e g _. apply R_effects.
  - intros g. apply R_state.
  - intros _. exact R_loop.
Qed.

Lemma resize_respects : respects R _resize.
Proof.
  intros g g' H. rewrite resize_in_two_parts in H. revert g g' H.
  change (respects R (resizeAndTile ;; redraw)).
  apply respects_bind; [exact R_pre | apply resizeAndTile_respects | intros _].
  unfold redraw. apply respects_bind; [exact R_pre | apply respects_get; exact R_pre | ].
  intros g0. apply changeState_respects.
Qed.

End Layout.

(** ** The level follows the score *)

#[local] Instance keeps_leveled_preorder : PreOrder keeps_leveled.
Proof.
  split.
  - intros g H. exact H.
  - intros a b c H1 H2 H. apply H2, H1, H.
Qed.

Lemma same_counters_leveled (g g' : Game) :
  counters g' = counters g -> keeps_leveled g g'.
Proof.
  unfold counters, keeps_leveled, leveled. intros H. injection H as Hs Hl.
  rewrite Hs, Hl. auto.
Qed.

Lemma keeps_counters_leveled {A} (m : M A) :
  keeps counters m -> respects keeps_leveled m.
Proof. intros K g g' H. apply same_counters_leveled. apply (K g g' H). Qed.

Lemma increaseLevel_counters (g g' : Game) :
  after (_increaseLevel g) = Some g' ->
  _score g' = _score g /\ _level g' = option_map (fun l => (l + 1)%Z) (_level g).
Proof.
  unfold _increaseLevel. intros H.
  apply after_bind in H. destruct H as [(a & g1 & E1 & H) | (e & E & _)];
    [ | discriminate E].
  inversion E1; subst g1. clear E1.
  match type of H with
  | after (?m ?G) = _ => assert (K : keeps counters m) by frame
  end.
  apply K in H. unfold counters in H. injection H as Hs Hl.
  split; [exact Hs | exact Hl].
Qed.

Lemma pointCounted_counters (g : Game) :
  _score (pointCounted g) = option_map Z.succ (_score g)
  /\ _level (pointCounted g) = _level g.
Proof. split; reflexivity. Qed.

Lemma scorePoint_leveled : respects keeps_leveled scorePoint.
Proof.
  intros g g' H Hl. rewrite scorePoint_runs in H.
  destruct (pointCounted_counters g) as [Ps Pl].
  unfold leveled in *.
  destruct (_score g) as [s|] eqn:Es; destruct (_level g) as [l|] eqn:El;
    try contradiction; cbn [option_map levelReached] in H, Ps.
  - destruct (Z.succ s >=? 10 * (l + 1))%Z eqn:T.
    + apply increaseLevel_counters in H. destruct H as [Hs Hlv].
      rewrite Hs, Hlv, Ps, Pl. cbn [option_map]. rewrite Z.geb_leb in T.
      apply Z.leb_le in T. lia.
    + inversion H; subst g'. rewrite Ps, Pl. rewrite Z.geb_leb in T.
      apply Z.leb_gt in T. lia.
  - inversion H; subst g'. rewrite Ps, Pl. exact I.
Qed.

Lemma updateScore_returns_or_scores (delta : Q) (g : Game) :
  _updateScore delta g = Ok tt g
  \/ _updateScore delta g = Throw TypeError g
  \/ _updateScore delta g = scorePoint g.
Proof.
  destruct (_bird g) as [b|] eqn:Hb.
  2:{ right; left. unfold _updateScore, bind, get, defined. rewrite Hb. reflexivity. }
  destruct (nth_error (heap g) b) as [bird|] eqn:He.
  2:{ right; left. unfold _updateScore, entity, bind, get, defined. rewrite Hb. simpl.
      rewrite He. reflexivity. }
  destruct (_tubesDriver g) as [td|] eqn:Htd.
  2:{ right; left.
      unfold _updateScore, TubesDriver_getTubes, driver, entity, bind, get, defined.
      rewrite Hb. simpl. rewrite He. simpl. rewrite Htd. reflexivity. }
  rewrite (updateScore_runs delta g b bird td Hb He Htd).
  destruct (filter _ _) as [|t rest]; [left; reflexivity | ].
  destruct (nth_error (heap g) t) as [tube|]; [ | right; left; reflexivity].
  destruct (crossing _ _ _); [right; right; reflexivity | left; reflexivity].
Qed.

Lemma updateScore_leveled (delta : Q) : respects keeps_leveled (_updateScore delta).
Proof.
  intros g g' H.
  destruct (updateScore_returns_or_scores delta g) as [E | [E | E]]; rewrite E in H.
  - inversion H. reflexivity.
  - inversion H. reflexivity.
  - apply scorePoint_leveled. exact H.
Qed.

Lemma simulate_leveled (delta : Q) : respects keeps_leveled (simulate delta).
Proof.
  unfold simulate.
  apply respects_bind; [typeclasses eauto | | intros _].
  { apply keeps_counters_leveled. frame. }
  apply respects_bind; [typeclasses eauto | | intros _].
  { apply keeps_counters_leveled. frame. }
  apply updateScore_leveled.
Qed.

Lemma update_leveled (delta : Q) : respects keeps_leveled (_update delta).
Proof.
  intros g g' H. rewrite update_in_two_parts in H. revert g g' H.
  change (respects keeps_leveled (simulate delta ;; recordHighScore)).
  apply respects_bind; [typeclasses eauto | apply simulate_leveled | intros _].
  apply keeps_counters_leveled. unfold recordHighScore. frame.
Qed.

Lemma loop_leveled : respects keeps_leveled _loop.
Proof.
  intros g g' H. rewrite loop_runs in H.
  pose proof (update_leveled (seconds_since (_lastUpdate g) (date_now g)) g) as K.
  destruct (_update _ g) as [[] g1 | e g1 |]; [ | | discriminate H].
  - specialize (K g1 eq_refl).
    destruct (State_eqb (_currentState g1) PLAYING); [destruct (_scene g1) | ];
      inversion H; subst g'; exact K.
  - inversion H; subst g'. apply K. reflexivity.
Qed.

Ltac leveled_same := intros; intros Hleveled; exact Hleveled.

Lemma changeState_leveled (s : State) : respects keeps_leveled (_changeState s).
Proof.
  apply changeState_respects; try typeclasses eauto; try leveled_same.
  apply loop_leveled.
Qed.

Lemma resize_leveled : respects keeps_leveled _resize.
Proof.
  apply resize_respects; try typeclasses eauto; try leveled_same.
  apply loop_leveled.
Qed.

Lemma createEntities_keeps_counters : keeps counters _createEntities.
Proof.
  unfold keeps. apply createEntities_respects; try typeclasses eauto; same_field.
Qed.

(** ** [Game.reset] *)

Lemma reset_in_two_parts (g : Game) :
  reset g = (_resize ;; _createEntities) (cleared g).
Proof. reflexivity. Qed.

Lemma reset_counters (g g' : Game) :
  after (reset g) = Some g' -> counters g' = (Some 0%Z, Some 0%Z).
Proof.
  rewrite reset_in_two_parts. intros H.
  apply after_bind in H. destruct H as [(a & g1 & E1 & H) | (e & E & _)].
  - pose proof (ok_after _ _ _ E1) as A1. apply resize_outside_play in A1; [ | discriminate].
    destruct A1 as (P & _ & _). apply createEntities_keeps_counters in H.
    rewrite H. unfold progress in P. injection P as _ Ps Pl _ _.
    unfold counters. rewrite Ps, Pl. reflexivity.
  - assert (A : after (_resize (cleared g)) = Some g') by (rewrite E; reflexivity).
    apply resize_outside_play in A; [ | discriminate].
    destruct A as (P & _ & _). unfold progress in P. injection P as _ Ps Pl _ _.
    unfold counters. rewrite Ps, Pl. reflexivity.
Qed.

Lemma reset_leveled (g g' : Game) : after (reset g) = Some g' -> leveled g'.
Proof.
  intros H. apply reset_counters in H. unfold counters in H. injection H as Hs Hl.
  unfold leveled. rewrite Hs, Hl. lia.
Qed.

Lemma start_leveled (g g' : Game) : after (start g) = Some g' -> leveled g'.
Proof.
  unfold start. intros H.
  apply after_bind in H. destruct H as [(a & g1 & E1 & H) | (e & E & _)].
  - pose proof (ok_after _ _ _ E1) as A1. apply reset_leveled in A1.
    match type of H with
    | after (?m ?G) = _ => assert (K : respects keeps_leveled m)
    end.
    { apply respects_bind; [typeclasses eauto | | intros _].
      { apply respects_modify. leveled_same. }
      apply respects_bind; [typeclasses eauto | apply respects_get; typeclasses eauto | ].
      intros g0. apply respects_bind; [typeclasses eauto | | intros _].
      { apply respects_modify. leveled_same. }
      apply changeState_leveled. }
    apply (K g1 g' H A1).
  - apply (reset_leveled g). rewrite E. reflexivity.
Qed.

Lemma flapBird_keeps_counters : keeps counters flapBird.
Proof. frame. Qed.

Lemma handle_leveled (ev : Event) (g g' : Game) (o : Outcome unit) :
  leveled g -> handle ev g = Some o -> after o = Some g' -> leveled g'.
Proof.
  intros Hl Hh Ha. destruct ev as [now | now | now cw ch | now].
  - unfold handle in Hh. destruct (_currentState g); try discriminate.
    destruct (_scene g); try discriminate. injection Hh as <-.
    rewrite at_time_runs in Ha. apply reset_leveled in Ha. exact Ha.
  - unfold handle in Hh. injection Hh as <-.
    rewrite at_time_runs, handleAction_runs in Ha.
    change (_currentState (set_date_now now g)) with (_currentState g) in Ha.
    destruct (_currentState g).
    + inversion Ha; subst g'. exact Hl.
    + apply start_leveled in Ha. exact Ha.
    + apply flapBird_keeps_counters in Ha.
      apply (same_counters_leveled (set_date_now now g) g' Ha). exact Hl.
    + apply start_leveled in Ha. exact Ha.
  - unfold handle in Hh. injection Hh as <-. rewrite at_time_runs in Ha.
    apply after_bind in Ha. destruct Ha as [(a & g1 & E1 & H) | (e & E & _)];
      [ | discriminate E].
    inversion E1; subst g1. apply resize_leveled in H. apply H. exact Hl.
  - unfold handle in Hh. destruct (scheduled g) as [|n]; [discriminate | ].
    injection Hh as <-. rewrite at_time_runs in Ha.
    apply after_bind in Ha. destruct Ha as [(a & g1 & E1 & H) | (e & E & _)];
      [ | discriminate E].
    inversion E1; subst g1. apply loop_leveled in H. apply H. exact Hl.
Qed.

Lemma prepared_returns (highScore : Z) (cfg : Config) (storage : list (string * Z))
    (canvas : Canvas) (oracle : list (list Spawn)) :
  prepared highScore cfg storage canvas oracle
  = Ok tt (mkGame cfg storage None LOADING [] canvas None None None None None None
             highScore [] [DrawCenteredText (texts_loading cfg); Clear] 0 0 oracle).
Proof. reflexivity. Qed.

Lemma parse_highScore_exact (storage : list (string * Z)) (highScore : Z) :
  parse_highScore storage = Some highScore ->
  highScore = stored_value storage /\ read_exactly highScore = true.
Proof.
  unfold parse_highScore, stored_value.
  destruct (storage_load "highScore" storage) as [v|].
  - destruct (read_exactly v) eqn:E; [ | discriminate]. intros H. injection H as <-.
    split; [reflexivity | exact E].
  - intros H. injection H as <-. split; reflexivity.
Qed.

Lemma parse_stored_value (storage : list (string * Z)) :
  read_exactly (stored_value storage) = true ->
  parse_highScore storage = Some (stored_value storage).
Proof.
  unfold parse_highScore, stored_value.
  destruct (storage_load "highScore" storage) as [v|]; [ | reflexivity].
  intros E. rewrite E. reflexivity.
Qed.

(** X3: The level follows the score: from the launch of the page on,
    whatever the high score read at the launch, whatever the events and
    however a handler ends, score and level are both undefined (before
    the first [reset()]) or the level is the number of completed tens of
    the score. *)
Theorem level_is_a_tenth_of_the_score :
  forall (highScore : Z) (cfg : Config) (storage : list (string * Z)) (canvas : Canvas)
         (oracle : list (list Spawn)) (g0 g : Game),
    prepared highScore cfg storage canvas oracle = Ok tt g0 ->
    reachable g0 g ->
    match _score g, _level g with
    | Some s, Some l => l = (s / 10)%Z
    | None, None => True
    | _, _ => False
    end.
Proof.
  intros highScore cfg storage canvas oracle g0 g Hl Hr.
  assert (H0 : leveled g0).
  { rewrite prepared_returns in Hl. inversion Hl; subst g0. exact I. }
  assert (H : leveled g).
  { clear Hl. induction Hr as [|g ev o g' Hr IH Hh Ha]; [exact H0 | ].
    apply (handle_leveled ev g g' o IH Hh Ha). }
  unfold leveled in H. destruct (_score g) as [s|]; destruct (_level g) as [l|]; auto.
  apply (Z.div_unique s 10 l (s - 10 * l)); lia.
Qed.

Lemma level_is_a_tenth_of_the_score_witness :
  match _score Sample.late, _level Sample.late with
  | Some s, Some l => l = (s / 10)%Z
  | None, None => True
  | _, _ => False
  end.
Proof.
  apply (level_is_a_tenth_of_the_score 0 Sample.config [] Sample.canvas Sample.oracle
           Sample.launched Sample.late).
  - reflexivity.
  - apply (run_reachable
             [Loaded 0; Action 1000; Resize 1100 400 300; Frame 11000; Frame 11016]).
    vm_compute. reflexivity.
Defined.

(** ** The stored high score *)

#[local] Instance keeps_saved_preorder : PreOrder keeps_saved.
Proof.
  split.
  - intros g H. exact H.
  - intros a b c H1 H2 H. apply H2, H1, H.
Qed.

Lemma storage_load_save (key : string) (v : Z) (s : list (string * Z)) :
  storage_load key (storage_save key v s) = Some v.
Proof. unfold storage_save. simpl. rewrite String.eqb_refl. reflexivity. Qed.

Lemma recordHighScore_saved : respects keeps_saved recordHighScore.
Proof.
  intros g g' H Hs. unfold recordHighScore, bind, get in H.
  destruct (_score g) as [s|]; [ | inversion H; subst g'; exact Hs].
  destruct (s >? _highScore g)%Z; simpl in H; inversion H; subst g'; [ | exact Hs].
  unfold saved, stored_value. simpl _storage. rewrite storage_load_save. reflexivity.
Qed.

Lemma same_persisted_saved (g g' : Game) : persisted g' = persisted g -> keeps_saved g g'.
Proof.
  unfold persisted, keeps_saved, saved. intros H. injection H as Hh Hs _.
  rewrite Hh, Hs. auto.
Qed.

Lemma update_saved (delta : Q) : respects keeps_saved (_update delta).
Proof.
  intros g g' H. rewrite update_in_two_parts in H. revert g g' H.
  change (respects keeps_saved (simulate delta ;; recordHighScore)).
  apply respects_bind; [typeclasses eauto | | intros _; apply recordHighScore_saved].
  intros g g' H. apply same_persisted_saved. apply (simulate_keeps_persisted delta g g' H).
Qed.

Lemma loop_saved : respects keeps_saved _loop.
Proof.
  intros g g' H. rewrite loop_runs in H.
  pose proof (update_saved (seconds_since (_lastUpdate g) (date_now g)) g) as K.
  destruct (_update _ g) as [[] g1 | e g1 |]; [ | | discriminate H].
  - specialize (K g1 eq_refl).
    destruct (State_eqb (_currentState g1) PLAYING); [destruct (_scene g1) | ];
      inversion H; subst g'; exact K.
  - inversion H; subst g'. apply K. reflexivity.
Qed.

Ltac saved_same := intros; intros Hsaved; exact Hsaved.

Lemma changeState_saved (s : State) : respects keeps_saved (_changeState s).
Proof.
  apply changeState_respects; try typeclasses eauto; try saved_same.
  apply loop_saved.
Qed.

Lemma resize_saved : respects keeps_saved _resize.
Proof.
  apply resize_respects; try typeclasses eauto; try saved_same.
  apply loop_saved.
Qed.

Lemma createEntities_saved : respects keeps_saved _createEntities.
Proof. apply createEntities_respects; try typeclasses eauto; saved_same. Qed.

Lemma reset_saved : respects keeps_saved reset.
Proof.
  unfold reset, _configurePhysicsEngine, _configureCollisionEngine, _configureScene.
  repeat first
    [ apply changeState_saved | apply resize_saved | apply createEntities_saved
    | apply respects_bind; [typeclasses eauto | | intros ?]
    | apply respects_modify; saved_same
    | apply respects_ret; typeclasses eauto ].
Qed.

Lemma start_saved : respects keeps_saved start.
Proof.
  unfold start, emit.
  repeat first
    [ apply changeState_saved | apply reset_saved
    | apply respects_bind; [typeclasses eauto | | intros ?]
    | apply respects_modify; saved_same
    | apply respects_get; typeclasses eauto ].
Qed.

Lemma handleAction_saved : respects keeps_saved _handleAction.
Proof.
  intros g g' H. rewrite handleAction_runs in H. destruct (_currentState g).
  - inversion H. reflexivity.
  - apply start_saved. exact H.
  - revert g g' H. change (respects keeps_saved flapBird).
    frame_by saved_same.
  - apply start_saved. exact H.
Qed.

Lemma handle_saved (ev : Event) (g g' : Game) (o : Outcome unit) :
  saved g -> handle ev g = Some o -> after o = Some g' -> saved g'.
Proof.
  intros Hs Hh Ha. destruct ev as [now | now | now cw ch | now].
  - unfold handle in Hh. destruct (_currentState g); try discriminate.
    destruct (_scene g); try discriminate. injection Hh as <-.
    rewrite at_time_runs in Ha. apply reset_saved in Ha. apply Ha. exact Hs.
  - unfold handle in Hh. injection Hh as <-. rewrite at_time_runs in Ha.
    apply handleAction_saved in Ha. apply Ha. exact Hs.
  - unfold handle in Hh. injection Hh as <-. rewrite at_time_runs in Ha.
    apply after_bind in Ha. destruct Ha as [(a & g1 & E1 & H) | (e & E & _)];
      [ | discriminate E].
    inversion E1; subst g1. apply resize_saved in H. apply H. exact Hs.
  - unfold handle in Hh. destruct (scheduled g) as [|n]; [discriminate | ].
    injection Hh as <-. rewrite at_time_runs in Ha.
    apply after_bind in Ha. destruct Ha as [(a & g1 & E1 & H) | (e & E & _)];
      [ | discriminate E].
    inversion E1; subst g1. apply loop_saved in H. apply H. exact Hs.
Qed.

(** X4: The high score survives a restart of the page: in every game that an
    execution reaches from a launch, the in-memory high score is the
    integer stored under ["highScore"] (0 when nothing is stored); when
    it is at most [2 ^ 53] in magnitude, so that its digits are read back
    exactly, a page launched on the storage of that game starts with the
    same high score. *)
Theorem high_score_is_read_back :
  forall (cfg : Config) (storage : list (string * Z)) (canvas : Canvas)
         (oracle : list (list Spawn)) (g0 g : Game),
    launch cfg storage canvas oracle = Some (Ok tt g0) ->
    reachable g0 g ->
    _highScore g = stored_value (_storage g)
    /\ (read_exactly (_highScore g) = true ->
        forall cfg' canvas' oracle',
          exists g1, launch cfg' (_storage g) canvas' oracle' = Some (Ok tt g1)
                     /\ _highScore g1 = _highScore g).
Proof.
  intros cfg storage canvas oracle g0 g Hl Hr.
  assert (H0 : saved g0).
  { unfold launch in Hl. destruct (parse_highScore storage) as [hs|] eqn:Ep;
      [ | discriminate Hl].
    cbn [option_map] in Hl. rewrite prepared_returns in Hl. injection Hl as <-.
    apply parse_highScore_exact in Ep. exact (proj1 Ep). }
  assert (H : saved g).
  { clear Hl. induction Hr as [|g ev o g' Hr IH Hh Ha]; [exact H0 | ].
    apply (handle_saved ev g g' o IH Hh Ha). }
  split; [exact H | ].
  intros He cfg' canvas' oracle'. unfold saved in H. rewrite H in He |- *.
  unfold launch. rewrite (parse_stored_value _ He). cbn [option_map].
  rewrite prepared_returns. eexists. split; reflexivity.
Qed.

Lemma high_score_is_read_back_witness :
  _highScore Sample.late = stored_value (_storage Sample.late)
  /\ (read_exactly (_highScore Sample.late) = true ->
      forall cfg' canvas' oracle',
        exists g1, launch cfg' (_storage Sample.late) canvas' oracle' = Some (Ok tt g1)
                   /\ _highScore g1 = _highScore Sample.late).
Proof.
  apply (high_score_is_read_back Sample.config [] Sample.canvas Sample.oracle
           Sample.launched Sample.late).
  - reflexivity.
  - apply (run_reachable
             [Loaded 0; Action 1000; Resize 1100 400 300; Frame 11000; Frame 11016]).
    vm_compute. reflexivity.
Defined.

(** ** What [reset()] builds *)

Lemma without_nil (ids : list nat) : without ids [] = [].
Proof. unfold without. induction ids as [|i rest IH]; [reflexivity | exact IH]. Qed.

Lemma resizeAndTile_runs (g : Game) (W0 H0 : Q) (ents : list nat) :
  _scene g = Some (mkScene W0 H0 ents) ->
  resizeAndTile g = _generateBackgrounds (fitted g ents).
Proof.
  intros Hsc. unfold resizeAndTile, fitted, Scene_resize, modify_scene, scene, emit,
    bind, get, modify, defined, ret.
  cbn [_scene set_canvas]. rewrite Hsc. reflexivity.
Qed.

Lemma redraw_outside_play (g : Game) :
  _currentState g <> PLAYING -> redraw g = Ok tt (redrawn g).
Proof.
  intros Hs. unfold redraw, redrawn. destruct g as [? ? ? st ? ? ? ? ? ? ? ? ? ? ? ? ? ?].
  cbn [_currentState] in Hs. destruct st; try reflexivity. contradiction Hs. reflexivity.
Qed.

Lemma resize_runs_outside_play (g : Game) (W0 H0 : Q) (ents : list nat) :
  _scene g = Some (mkScene W0 H0 ents) ->
  _currentState g <> PLAYING ->
  let cfg := _config g in
  let W := clientWidth (_canvas g) in
  let H := clientHeight (_canvas g) in
  let kept := without (_backgrounds g) ents in
  _resize g
  = match tiles_needed (H * (background_width cfg / background_height cfg)) W with
    | O => Hang
    | S n =>
        match more_tiles cfg W H n 0 with
        | Some xs => Ok tt (redrawn (grown cfg W H (fitted g kept) kept (0 :: xs)))
        | None => Hang
        end
    end.
Proof.
  intros Hsc Hs cfg W H kept. rewrite resize_in_two_parts.
  unfold bind at 1. rewrite (resizeAndTile_runs g W0 H0 ents Hsc).
  rewrite (generateBackgrounds_runs (fitted g ents) W H ents eq_refl).
  change (_config (fitted g ents)) with cfg.
  change (_backgrounds (fitted g ents)) with (_backgrounds g). fold kept.
  destruct (tiles_needed _ W) as [|n]; [reflexivity | ].
  destruct (more_tiles cfg W H n 0) as [xs|]; [ | reflexivity].
  apply redraw_outside_play. exact Hs.
Qed.

Lemma createEntities_runs (g : Game) (W H : Q) (ents : list nat) :
  _scene g = Some (mkScene W H ents) ->
  let cfg := _config g in
  _createEntities g
  = match tiles_needed (H * (background_width cfg / background_height cfg)) W with
    | O => Hang
    | S n =>
        match more_tiles cfg W H n 0 with
        | Some xs => Ok tt (populated g W H ents (0 :: xs))
        | None => Hang
        end
    end.
Proof.
  intros Hsc cfg. unfold _createEntities.
  run_to tt (set_backgrounds [] g).
  unfold bind at 1.
  rewrite (generateBackgrounds_runs (set_backgrounds [] g) W H ents Hsc).
  change (_config (set_backgrounds [] g)) with cfg.
  destruct (tiles_needed _ W) as [|n]; [reflexivity | ].
  cbn [_backgrounds set_backgrounds without fold_left].
  destruct (more_tiles cfg W H n 0) as [xs|]; [ | reflexivity].
  reflexivity.
Qed.

Lemma reset_runs (g : Game) :
  let cfg := _config g in
  let W := clientWidth (_canvas g) in
  let H := clientHeight (_canvas g) in
  reset g
  = match tiles_needed (H * (background_width cfg / background_height cfg)) W with
    | O => Hang
    | S n =>
        match more_tiles cfg W H n 0 with
        | Some xs => Ok tt (restarted g (0 :: xs))
        | None => Hang
        end
    end.
Proof.
  intros cfg W H. rewrite reset_in_two_parts. unfold bind.
  rewrite (resize_runs_outside_play (cleared g) _ _ [] eq_refl);
    [ | cbn; discriminate].
  change (_config (cleared g)) with cfg.
  change (clientWidth (_canvas (cleared g))) with W.
  change (clientHeight (_canvas (cleared g))) with H.
  rewrite without_nil.
  destruct (tiles_needed _ W) as [|n] eqn:En; [reflexivity | ].
  destruct (more_tiles cfg W H n 0) as [xs|] eqn:Exs; [ | reflexivity].
  match goal with
  | |- _createEntities ?G = _ =>
      rewrite (createEntities_runs G W H
                 (seq (List.length (heap g)) (List.length (0 :: xs))) eq_refl)
  end.
  match goal with
  | |- context [_config ?G] => change (_config G) with cfg
  end.
  rewrite En, Exs. reflexivity.
Qed.

Lemma nth_error_last {A} (l : list A) (a : A) : nth_error (l ++ [a]) (List.length l) = Some a.
Proof. induction l as [|b rest IH]; [reflexivity | exact IH]. Qed.

Lemma reset_returns_restarted (g g' : Game) :
  reset g = Ok tt g' -> exists xs, xs <> [] /\ g' = restarted g xs.
Proof.
  intros Hr. rewrite reset_runs in Hr.
  destruct (tiles_needed _ _) as [|n]; [discriminate Hr | ].
  destruct (more_tiles _ _ _ n 0) as [xs|]; [ | discriminate Hr].
  exists (0 :: xs). split; [discriminate | ]. injection Hr as <-. reflexivity.
Qed.

(** X5: [reset()] leaves a fresh session: the state is [IDLE] and the overlay
    on screen shows a score of 0 beside the high score; score and level
    are 0; canvas and scene have the client size of the canvas, not the
    configured one; the physics engine has the configured gravitation;
    the tube driver is constructed with the configured speed, width,
    border offset, gaps and distances; the bird is a new entity
    constructed at [startX], centred in the height of the resized scene,
    with the configured size and flap speed, [zIndex] 2, collidable and
    flying.  High score, storage, the pending ticks and the time of the
    last update are what they were, and so is every entity of the heap. *)
Theorem reset_starts_a_fresh_session :
  forall (g g' : Game),
    reset g = Ok tt g' ->
    let cfg := _config g in
    let W := clientWidth (_canvas g) in
    let H := clientHeight (_canvas g) in
    _currentState g' = IDLE
    /\ hd_error (effects g')
       = Some (DrawWithScores (texts_idle cfg) (Some 0%Z) (_highScore g))
    /\ _score g' = Some 0%Z /\ _level g' = Some 0%Z
    /\ _canvas g' = mkCanvas W H W H
    /\ option_map (fun sc => (scene_width sc, scene_height sc)) (_scene g') = Some (W, H)
    /\ _physicsEngine g' = Some (gravitation cfg)
    /\ option_map (fun td => (td_speed td, td_width td, td_borderOffset td,
                              td_spaceMin td, td_spaceMax td,
                              td_minDistance td, td_maxDistance td)) (_tubesDriver g')
       = Some (tubes_speed cfg, tubes_width cfg, tubes_borderOffset cfg,
               tubes_spaceMin cfg, tubes_spaceMax cfg,
               tubes_minDistance cfg, tubes_maxDistance cfg)
    /\ (exists b e,
          _bird g' = Some b /\ nth_error (heap g') b = Some e
          /\ x e = bird_startX cfg
          /\ y e = H / 2 - bird_height cfg / 2
          /\ width e = bird_width cfg /\ height e = bird_height cfg
          /\ zIndex e = 2%Z /\ collidable e = true
          /\ exists v t, extra e = BirdX v (bird_flapSpeed cfg) true t)
    /\ persisted g' = persisted g
    /\ pacing g' = pacing g
    /\ extends g g'.
Proof.
  intros g g' Hr cfg W H. destruct (reset_returns_restarted g g' Hr) as (xs & _ & ->).
  repeat match goal with |- _ /\ _ => split end; try reflexivity.
  - eexists. exists (newBird cfg H). split; [reflexivity | ]. split.
    + unfold restarted, populated. cbn [heap set_heap set_bird set_scene].
      apply nth_error_last.
    + repeat split. eexists. eexists. reflexivity.
  - intros i e Hi. unfold restarted, populated, grown, redrawn, fitted, cleared.
    cbn [heap set_heap set_bird set_scene set_tubesDriver set_backgrounds set_effects
         set_currentState set_canvas set_physicsEngine set_level set_score].
    rewrite !nth_error_app1; [exact Hi | | | ];
      rewrite ?length_app; try (apply Nat.lt_lt_add_r); try (apply Nat.lt_lt_add_r);
      apply nth_error_Some; congruence.
Qed.

Lemma reset_starts_a_fresh_session_witness :
  _currentState Sample.idle = IDLE
  /\ hd_error (effects Sample.idle)
     = Some (DrawWithScores (texts_idle Sample.config) (Some 0%Z) 0%Z)
  /\ _score Sample.idle = Some 0%Z /\ _level Sample.idle = Some 0%Z
  /\ _canvas Sample.idle = mkCanvas 400 300 400 300
  /\ option_map (fun sc => (scene_width sc, scene_height sc)) (_scene Sample.idle)
     = Some (400, 300)
  /\ _physicsEngine Sample.idle = Some (gravitation Sample.config)
  /\ option_map (fun td => (td_speed td, td_width td, td_borderOffset td,
                            td_spaceMin td, td_spaceMax td,
                            td_minDistance td, td_maxDistance td))
       (_tubesDriver Sample.idle)
     = Some (100, 50, 20, 80, 120, 150, 250)
  /\ (exists b e,
        _bird Sample.idle = Some b /\ nth_error (heap Sample.idle) b = Some e
        /\ x e = 100
        /\ y e = 300 / 2 - 20 / 2
        /\ width e = 30 /\ height e = 20
        /\ zIndex e = 2%Z /\ collidable e = true
        /\ exists v t, extra e = BirdX v 300 true t)
  /\ persisted Sample.idle = persisted Sample.launched
  /\ pacing Sample.idle = pacing Sample.launched
  /\ extends (set_date_now 0 Sample.launched) Sample.idle.
Proof.
  apply (reset_starts_a_fresh_session (set_date_now 0 Sample.launched) Sample.idle).
  vm_compute. reflexivity.
Defined.

Lemma Forall_map_tile (cfg : Config) (H : Q) (xs : list Q) :
  Forall (fun t => isBackground t = true) (map (tile cfg H) xs).
Proof. induction xs as [|x0 rest IH]; constructor; [reflexivity | exact IH]. Qed.

Lemma seq_app_next (a n m : nat) : (seq a n ++ seq (a + n) m)%list = seq a (n + m).
Proof. symmetry. apply seq_app. Qed.

(** X6: [reset()] tiles the scene twice.  Its [_resize()] generates a row of
    background tiles, and [_createEntities()] then empties [_backgrounds]
    before it generates the row again: the scene of the new session holds
    the two rows and the bird, in this order, while [_backgrounds] lists
    the second row only, so that no later [_generateBackgrounds()] deletes
    the tiles of the first. *)
Theorem reset_tiles_the_scene_twice :
  forall (g g' : Game),
    reset g = Ok tt g' ->
    exists (tiles : list Entity),
      let n := List.length tiles in
      let first := seq (List.length (heap g)) n in
      let second := seq (List.length (heap g) + n) n in
      let b := (List.length (heap g) + n + n)%nat in
      tiles <> []
      /\ Forall (fun t => isBackground t = true) tiles
      /\ heap g'
         = (heap g ++ tiles ++ tiles
              ++ [newBird (_config g) (clientHeight (_canvas g))])%list
      /\ option_map entities (_scene g') = Some (first ++ second ++ [b])%list
      /\ _backgrounds g' = second
      /\ _bird g' = Some b.
Proof.
  intros g g' Hr. destruct (reset_returns_restarted g g' Hr) as (xs & Hne & ->).
  exists (map (tile (_config g) (clientHeight (_canvas g))) xs).
  cbv zeta. rewrite !length_map.
  split; [destruct xs; [congruence | discriminate] | ].
  split; [apply Forall_map_tile | ].
  unfold restarted, populated, grown, redrawn, fitted, cleared.
  cbn [heap set_heap set_bird set_scene set_tubesDriver set_backgrounds set_effects
       set_currentState set_canvas set_physicsEngine set_level set_score
       _scene _backgrounds _bird _config option_map entities app].
  rewrite !length_app, !length_map, <- !app_assoc.
  repeat split; reflexivity.
Qed.

Lemma reset_tiles_the_scene_twice_witness :
  exists (tiles : list Entity),
    let n := List.length tiles in
    let first := seq (List.length (heap (set_date_now 0 Sample.launched))) n in
    let second := seq (List.length (heap (set_date_now 0 Sample.launched)) + n) n in
    let b := (List.length (heap (set_date_now 0 Sample.launched)) + n + n)%nat in
    tiles <> []
    /\ Forall (fun t => isBackground t = true) tiles
    /\ heap Sample.idle
       = (heap (set_date_now 0 Sample.launched) ++ tiles ++ tiles
            ++ [newBird (_config (set_date_now 0 Sample.launched))
                  (clientHeight (_canvas (set_date_now 0 Sample.launched)))])%list
    /\ option_map entities (_scene Sample.idle) = Some (first ++ second ++ [b])%list
    /\ _backgrounds Sample.idle = second
    /\ _bird Sample.idle = Some b.
Proof.
  apply (reset_tiles_the_scene_twice (set_date_now 0 Sample.launched) Sample.idle).
  vm_compute. reflexivity.
Defined.

(** ** When [reset()] returns *)

Lemma tiles_decided (cfg : Config) (W H : Q) :
  let w := H * (background_width cfg / background_height cfg) in
  match tiles_needed w W with
  | O => False
  | S n =>
      match more_tiles cfg W H n 0 with
      | Some _ => 0 < w \/ W <= 0
      | None => w <= 0 /\ 0 < W
      end
  end.
Proof.
  intros w. unfold tiles_needed. destruct (Qltb 0 w) eqn:Ew.
  - apply Qltb_true in Ew.
    destruct (more_tiles_enough cfg W H Ew _ 0 (enough_tiles W w Ew)) as [xs Hxs].
    fold w. rewrite Hxs. left. exact Ew.
  - apply Qltb_false in Ew. rewrite more_tiles_O.
    destruct (Qltb 0 W) eqn:EW.
    + apply Qltb_true in EW. split; assumption.
    + apply Qltb_false in EW. right. exact EW.
Qed.

(** X7: [reset()] does not return exactly when the background tiles would
    have no positive width in a canvas of positive client width: the loop
    of [_generateBackgrounds] in its [_resize()] then runs for ever, and
    in every other case both of its runs end. *)
Theorem reset_returns_unless_the_tiles_are_flat :
  forall (g : Game),
    let cfg := _config g in
    let W := clientWidth (_canvas g) in
    let w := clientHeight (_canvas g) * (background_width cfg / background_height cfg) in
    reset g = Hang <-> w <= 0 /\ 0 < W.
Proof.
  intros g cfg W w. rewrite reset_runs.
  pose proof (tiles_decided cfg W (clientHeight (_canvas g))) as D.
  cbv zeta in D. fold cfg W w in D |- *.
  destruct (tiles_needed w W) as [|n]; [contradiction | ].
  destruct (more_tiles cfg W (clientHeight (_canvas g)) n 0) as [xs|].
  - split; [discriminate | ]. intros [Hw HW]. exfalso.
    destruct D as [D | D]; lra.
  - split; [intros _; exact D | reflexivity].
Qed.

(** ** The state machine *)

Lemma reset_never_throws (g : Game) (e : Error) (g' : Game) : reset g <> Throw e g'.
Proof.
  rewrite reset_runs. destruct (tiles_needed _ _) as [|n]; [discriminate | ].
  destruct (more_tiles _ _ _ n 0); discriminate.
Qed.

Lemma changeState_playing_runs (g : Game) :
  _changeState PLAYING g
  = _loop (set_currentState PLAYING (set_effects (Clear :: effects g) g)).
Proof. reflexivity. Qed.

Lemma changeState_playing_state (g g' : Game) :
  after (_changeState PLAYING g) = Some g' ->
  _currentState g' = PLAYING \/ _currentState g' = GAME_OVER.
Proof.
  rewrite changeState_playing_runs. intros H. apply loop_stays_or_ends in H.
  exact H.
Qed.

Lemma start_state (g g' : Game) :
  after (start g) = Some g' ->
  _currentState g' = PLAYING \/ _currentState g' = GAME_OVER.
Proof.
  unfold start. intros H.
  apply after_bind in H. destruct H as [(a & g1 & E1 & H) | (e & E & _)].
  - unfold emit in H.
    repeat match type of H with
           | after (bind (modify ?f) ?k ?G) = _ =>
               change (bind (modify f) k G) with (k tt (f G)) in H; cbv beta in H
           | after (bind get ?k ?G) = _ =>
               change (bind get k G) with (k G G) in H; cbv beta in H
           end.
    apply changeState_playing_state in H. exact H.
  - exfalso. apply (reset_never_throws g e g' E).
Qed.

Lemma loaded_state (g g' : Game) :
  after (reset g) = Some g' -> _currentState g' = IDLE.
Proof.
  intros H. destruct (reset g) as [[] g1 | e g1 |] eqn:E; [ | | discriminate H].
  - injection H as <-. destruct (reset_returns_restarted g g1 E) as (xs & _ & ->).
    reflexivity.
  - exfalso. apply (reset_never_throws g e g1 E).
Qed.

Lemma action_state (g g' : Game) :
  after (_handleAction g) = Some g' ->
  match _currentState g with
  | LOADING => _currentState g' = LOADING
  | PLAYING => _currentState g' = PLAYING
  | IDLE | GAME_OVER => _currentState g' = PLAYING \/ _currentState g' = GAME_OVER
  end.
Proof.
  rewrite handleAction_runs. intros H. destruct (_currentState g) eqn:Es.
  - injection H as <-. exact Es.
  - apply (start_state g g' H).
  - apply flapBird_keeps_pacing_and_state in H. injection H as _ Hst.
    rewrite Hst. exact Es.
  - apply (start_state g g' H).
Qed.

Lemma resize_state (g g' : Game) :
  after (_resize g) = Some g' ->
  _currentState g' = _currentState g
  \/ (_currentState g = PLAYING /\ _currentState g' = GAME_OVER).
Proof.
  intros H. destruct (State_eqb (_currentState g) PLAYING) eqn:Es.
  - apply State_eqb_eq in Es. rewrite resize_in_two_parts in H.
    apply after_bind in H. destruct H as [(a & g1 & E1 & H) | (e & E & A)].
    + pose proof (resizeAndTile_keeps_progress g g1 (ok_after _ _ _ E1)) as P.
      unfold progress in P. injection P as Hst _ _ _ _.
      rewrite redraw_in_play in H; [ | congruence].
      apply loop_stays_or_ends in H. unfold stays_or_ends in H.
      cbn [_currentState set_currentState] in H.
      destruct H as [H | H]; [left; congruence | right; split; assumption].
    + assert (A1 : after (resizeAndTile g) = Some g') by (rewrite E; reflexivity).
      pose proof (resizeAndTile_keeps_progress g g' A1) as P.
      unfold progress in P. injection P as Hst _ _ _ _. left. exact Hst.
  - assert (Hs : _currentState g <> PLAYING).
    { intros Hp. apply State_eqb_eq in Hp. congruence. }
    apply resize_outside_play in H; [ | exact Hs]. destruct H as (P & _ & _).
    unfold progress in P. injection P as Hst _ _ _ _. left. exact Hst.
Qed.

(** X8: The states follow one another as the handlers allow it and in no
    other way: the end of loading leaves [LOADING] for [IDLE]; the
    primary action does nothing to the state while [LOADING] or
    [PLAYING], and from [IDLE] or [GAME_OVER] it leads to [PLAYING], or
    to [GAME_OVER] when the first tick already ends the game; a resize
    and a tick leave the state as it is or end the game, a resize only
    during play. *)
Theorem events_follow_the_state_machine :
  forall (ev : Event) (g : Game) (o : Outcome unit) (g' : Game),
    handle ev g = Some o ->
    after o = Some g' ->
    match ev with
    | Loaded _ => _currentState g = LOADING /\ _currentState g' = IDLE
    | Action _ =>
        match _currentState g with
        | LOADING => _currentState g' = LOADING
        | PLAYING => _currentState g' = PLAYING
        | IDLE | GAME_OVER =>
            _currentState g' = PLAYING \/ _currentState g' = GAME_OVER
        end
    | Resize _ _ _ =>
        _currentState g' = _currentState g
        \/ (_currentState g = PLAYING /\ _currentState g' = GAME_OVER)
    | Frame _ =>
        _currentState g' = _currentState g \/ _currentState g' = GAME_OVER
    end.
Proof.
  intros ev g o g' Hh Ha. destruct ev as [now | now | now cw ch | now].
  - unfold handle in Hh. destruct (_currentState g) eqn:Es; try discriminate Hh.
    destruct (_scene g); try discriminate Hh. injection Hh as <-.
    rewrite at_time_runs in Ha. split; [reflexivity | ].
    apply (loaded_state _ g' Ha).
  - unfold handle in Hh. injection Hh as <-. rewrite at_time_runs in Ha.
    apply (action_state _ g' Ha).
  - unfold handle in Hh. injection Hh as <-. rewrite at_time_runs in Ha.
    apply (resize_state
             (set_canvas (mkCanvas cw ch (cv_width (_canvas g)) (cv_height (_canvas g)))
                (set_date_now now g)) g' Ha).
  - unfold handle in Hh. destruct (scheduled g) as [|n]; [discriminate Hh | ].
    injection Hh as <-. rewrite at_time_runs in Ha.
    apply (loop_stays_or_ends (set_scheduled n (set_date_now now g)) g' Ha).
Qed.

Lemma events_follow_the_state_machine_witness :
  _currentState Sample.playing = PLAYING \/ _currentState Sample.playing = GAME_OVER.
Proof.
  apply (events_follow_the_state_machine (Action 1000) Sample.idle
           (at_time 1000 _handleAction Sample.idle) Sample.playing).
  - reflexivity.
  - vm_compute. reflexivity.
Defined.

(** ** [Game._resize] before and after the scene exists *)

(** X9: A resize that arrives before the first [reset()], while the
    resources are loading, finds no scene: the canvas takes its client
    size and [this._scene.resize] throws; nothing is resized, generated
    or drawn. *)
Theorem resize_before_the_scene_exists_throws :
  forall (g : Game),
    _scene g = None ->
    let W := clientWidth (_canvas g) in
    let H := clientHeight (_canvas g) in
    _resize g = Throw TypeError (set_canvas (mkCanvas W H W H) g).
Proof.
  intros g Hsc W H. unfold _resize.
  run_to g g. run_to tt (set_canvas (mkCanvas W H W H) g).
  unfold Scene_resize, modify_scene, scene, bind, get, defined, throw.
  cbn [_scene set_canvas]. rewrite Hsc. reflexivity.
Qed.

Lemma resize_before_the_scene_exists_throws_witness :
  _resize Sample.launched
  = Throw TypeError (set_canvas (mkCanvas 400 300 400 300) Sample.launched).
Proof.
  apply (resize_before_the_scene_exists_throws Sample.launched). reflexivity.
Defined.


(** ** [Game._generateBackgrounds]: no tile too many *)

Lemma more_tiles_last (cfg : Config) (W H : Q) (fuel : nat) :
  forall xl xs,
    more_tiles cfg W H fuel xl = Some xs ->
    exists before last,
      xl :: xs = (before ++ [last])%list
      /\ Forall (fun x0 => x0 < W) before /\ W <= last.
Proof.
  induction fuel as [|fuel IH]; intros xl xs Hm.
  - change (more_tiles cfg W H 0 xl) with (if Qltb xl W then None else Some (@nil Q)) in Hm.
    destruct (Qltb xl W) eqn:E; [discriminate Hm | ]. injection Hm as <-.
    exists [], xl. split; [reflexivity | ]. split; [constructor | ].
    apply Qltb_false. exact E.
  - change (more_tiles cfg W H (S fuel) xl)
      with (if Qltb xl W
            then option_map
                   (cons (xl + H * (background_width cfg / background_height cfg)))
                   (more_tiles cfg W H fuel
                      (xl + H * (background_width cfg / background_height cfg)))
            else Some []) in Hm.
    destruct (Qltb xl W) eqn:E.
    + destruct (more_tiles cfg W H fuel _) as [xs'|] eqn:E'; [ | discriminate Hm].
      injection Hm as <-. destruct (IH _ _ E') as (before & last & Heq & Hb & Hl).
      exists (xl :: before), last. split; [simpl; rewrite Heq; reflexivity | ].
      split; [constructor; [apply Qltb_true; exact E | exact Hb] | exact Hl].
    + injection Hm as <-. exists [], xl. split; [reflexivity | ].
      split; [constructor | apply Qltb_false; exact E].
Qed.

(** X10: The loop of [_generateBackgrounds] stops at the first tile that
    starts at the scene width or beyond: of the tiles of a call that
    returns, the last one starts there, entirely outside the scene, and
    every other one starts to the left of the scene's right edge. *)
Theorem only_the_last_tile_starts_beyond_the_scene :
  forall (g g' : Game) (sc : Scene),
    _scene g = Some sc ->
    _generateBackgrounds g = Ok tt g' ->
    exists (tiles : list Entity) (last : Entity),
      heap g' = (heap g ++ tiles ++ [last])%list
      /\ Forall (fun t => isBackground t = true /\ x t < scene_width sc) tiles
      /\ isBackground last = true
      /\ scene_width sc <= x last.
Proof.
  intros g g' [W H ents] Hsc Hr.
  rewrite (generateBackgrounds_runs g W H ents Hsc) in Hr.
  destruct (tiles_needed _ W) as [|n]; [discriminate Hr | ].
  destruct (more_tiles (_config g) W H n 0) as [xs|] eqn:Exs; [ | discriminate Hr].
  injection Hr as <-.
  destruct (more_tiles_last _ _ _ _ _ _ Exs) as (before & last & Heq & Hb & Hl).
  exists (map (tile (_config g) H) before), (tile (_config g) H last).
  unfold grown. cbn [heap set_backgrounds set_scene set_heap].
  rewrite Heq, map_app. split; [reflexivity | ].
  split; [ | split; [reflexivity | exact Hl]].
  clear Heq. induction Hb as [|x0 rest Hx Hrest IH]; constructor.
  - split; [reflexivity | exact Hx].
  - exact IH.
Qed.

Lemma only_the_last_tile_starts_beyond_the_scene_witness :
  exists (tiles : list Entity) (last : Entity),
    heap (match after (_generateBackgrounds Sample.idle) with
          | Some g => g
          | None => Sample.idle
          end)
    = (heap Sample.idle ++ tiles ++ [last])%list
    /\ Forall (fun t => isBackground t = true /\ x t < 400) tiles
    /\ isBackground last = true
    /\ 400 <= x last.
Proof.
  apply (only_the_last_tile_starts_beyond_the_scene Sample.idle _
           (mkScene 400 300 (seq 0 7))).
  - reflexivity.
  - vm_compute. reflexivity.
Defined.

Lemma filter_filter {A} (p q : A -> bool) (l : list A) :
  filter q (filter p l) = filter (fun a => p a && q a) l.
Proof.
  induction l as [|a rest IH]; [reflexivity | ]. simpl.
  destruct (p a); simpl; [destruct (q a) | ]; rewrite IH; reflexivity.
Qed.

Lemma without_filter (ids : list nat) :
  forall ents, without ids ents = filter (fun i => negb (mem i ids)) ents.
Proof.
  unfold without. induction ids as [|id rest IH]; intros ents.
  - simpl. induction ents as [|a l IHl]; [reflexivity | ]. simpl. rewrite <- IHl.
    reflexivity.
  - simpl. rewrite IH, filter_filter. apply filter_ext. intros i.
    unfold mem. simpl. destruct (Nat.eqb i id); reflexivity.
Qed.

(** X11: A resize outside play, in a game that has a scene: canvas and scene
    take the client size of the canvas; the scene loses the entities that
    [_backgrounds] lists, keeps every other one in its place (the bird,
    the tubes, tiles that are no longer listed) and gains the new tiles,
    which [_backgrounds] lists after the old ones; the overlay of the
    state is drawn last; state, score, level, high score, bird, pending
    ticks and the time of the last update are what they were. *)
Theorem resize_outside_play_refits_the_scene :
  forall (g g' : Game) (sc : Scene),
    _scene g = Some sc ->
    _currentState g <> PLAYING ->
    _resize g = Ok tt g' ->
    let W := clientWidth (_canvas g) in
    let H := clientHeight (_canvas g) in
    exists (n : nat),
      let new := seq (List.length (heap g)) n in
      _canvas g' = mkCanvas W H W H
      /\ _scene g'
         = Some (mkScene W H
                   (filter (fun i => negb (mem i (_backgrounds g))) (entities sc) ++ new))
      /\ _backgrounds g' = (_backgrounds g ++ new)%list
      /\ List.length (heap g') = (List.length (heap g) + n)%nat
      /\ hd_error (effects g') = Some (overlay (_currentState g) g)
      /\ progress g' = progress g
      /\ pacing g' = pacing g.
Proof.
  intros g g' [W0 H0 ents] Hsc Hs Hr W H.
  rewrite (resize_runs_outside_play g W0 H0 ents Hsc Hs) in Hr.
  destruct (tiles_needed _ _) as [|k]; [discriminate Hr | ].
  destruct (more_tiles _ _ _ k 0) as [xs|]; [ | discriminate Hr].
  injection Hr as <-. exists (List.length (0 :: xs)).
  rewrite <- without_filter. unfold redrawn, grown, fitted.
  cbn [heap set_heap set_scene set_backgrounds set_effects set_currentState set_canvas
       _canvas _scene _backgrounds effects hd_error entities].
  rewrite length_app, length_map.
  repeat match goal with |- _ /\ _ => split end; reflexivity.
Qed.

Lemma resize_outside_play_refits_the_scene_witness :
  exists (n : nat),
    let new := seq (List.length (heap Sample.idle)) n in
    _canvas (match after (_resize Sample.idle) with Some g => g | None => Sample.idle end)
    = mkCanvas 400 300 400 300
    /\ _scene (match after (_resize Sample.idle) with Some g => g | None => Sample.idle end)
       = Some (mkScene 400 300
                 (filter (fun i => negb (mem i (_backgrounds Sample.idle))) (seq 0 7) ++ new))
    /\ _backgrounds
         (match after (_resize Sample.idle) with Some g => g | None => Sample.idle end)
       = (_backgrounds Sample.idle ++ new)%list
    /\ List.length
         (heap (match after (_resize Sample.idle) with Some g => g | None => Sample.idle end))
       = (List.length (heap Sample.idle) + n)%nat
    /\ hd_error
         (effects
            (match after (_resize Sample.idle) with Some g => g | None => Sample.idle end))
       = Some (overlay (_currentState Sample.idle) Sample.idle)
    /\ progress (match after (_resize Sample.idle) with Some g => g | None => Sample.idle end)
       = progress Sample.idle
    /\ pacing (match after (_resize Sample.idle) with Some g => g | None => Sample.idle end)
       = pacing Sample.idle.
Proof.
  apply (resize_outside_play_refits_the_scene Sample.idle _ (mkScene 400 300 (seq 0 7))).
  - reflexivity.
  - discriminate.
  - vm_compute. reflexivity.
Defined.

(** ** The pending ticks during play *)

Lemma update_keeps_pacing (delta : Q) : keeps pacing (_update delta).
Proof. frame. Qed.

Lemma update_keeps_date_now (delta : Q) : keeps date_now (_update delta).
Proof. frame. Qed.

(** A tick that returns: still [PLAYING], it has requested the next tick
    and noted its time; otherwise pending ticks and time are untouched. *)
Lemma loop_returns (g g' : Game) :
  _loop g = Ok tt g' ->
  (_currentState g' = PLAYING
   /\ pacing g' = (S (scheduled g), Some (date_now g)))
  \/ (_currentState g' <> PLAYING /\ pacing g' = pacing g).
Proof.
  rewrite loop_runs. intros H.
  pose proof (update_keeps_pacing (seconds_since (_lastUpdate g) (date_now g)) g) as K.
  destruct (_update _ g) as [[] g1 | e g1 |]; [ | discriminate H | discriminate H].
  specialize (K g1 eq_refl). cbv beta in K.
  destruct (State_eqb (_currentState g1) PLAYING) eqn:Es.
  - destruct (_scene g1); [ | discriminate H]. injection H as <-.
    apply State_eqb_eq in Es. left. split; [exact Es | ].
    unfold pacing in K |- *. injection K as K _.
    unfold ticked. cbn [scheduled _lastUpdate set_scheduled set_lastUpdate set_effects].
    rewrite K. reflexivity.
  - injection H as <-. right. split; [ | exact K].
    intros Hp. apply State_eqb_eq in Hp. congruence.
Qed.

Lemma resize_in_play_returns (g g' : Game) :
  _currentState g = PLAYING ->
  _resize g = Ok tt g' ->
  _currentState g' = PLAYING ->
  scheduled g' = S (scheduled g).
Proof.
  intros Hs Hr Hs'. rewrite resize_in_two_parts in Hr.
  apply bind_ok_inv in Hr. destruct Hr as ([] & g1 & E1 & Hr).
  pose proof (resizeAndTile_keeps_progress g g1 (ok_after _ _ _ E1)) as P.
  pose proof (resizeAndTile_keeps_pacing g g1 (ok_after _ _ _ E1)) as Q.
  unfold progress in P. injection P as Hst _ _ _ _.
  unfold pacing in Q. injection Q as Hsch _.
  rewrite redraw_in_play in Hr; [ | congruence].
  apply loop_returns in Hr. destruct Hr as [[_ Hp] | [Hn _]]; [ | contradiction].
  unfold pacing in Hp. injection Hp as Hp _. rewrite Hp. cbn [scheduled set_currentState set_effects].
  rewrite Hsch. reflexivity.
Qed.

(** X12: While the game is [PLAYING], the pending ticks count the resizes: a
    tick that leaves the game [PLAYING] replaces itself by the next one,
    a flap requests none, and every resize that leaves the game
    [PLAYING] adds a pending tick, which from then on replaces itself as
    well. *)
Theorem pending_ticks_count_the_resizes :
  forall (ev : Event) (g g' : Game),
    _currentState g = PLAYING ->
    handle ev g = Some (Ok tt g') ->
    _currentState g' = PLAYING ->
    scheduled g'
    = match ev with
      | Resize _ _ _ => S (scheduled g)
      | _ => scheduled g
      end.
Proof.
  intros ev g g' Hs Hh Hs'. destruct ev as [now | now | now cw ch | now].
  - unfold handle in Hh. rewrite Hs in Hh. discriminate Hh.
  - unfold handle in Hh. injection Hh as Hh. rewrite at_time_runs, handleAction_runs in Hh.
    change (_currentState (set_date_now now g)) with (_currentState g) in Hh.
    rewrite Hs in Hh.
    apply ok_after in Hh. apply flapBird_keeps_pacing_and_state in Hh.
    injection Hh as Hsch _. exact Hsch.
  - unfold handle in Hh. injection Hh as Hh. rewrite at_time_runs in Hh.
    apply (resize_in_play_returns
             (set_canvas (mkCanvas cw ch (cv_width (_canvas g)) (cv_height (_canvas g)))
                (set_date_now now g)) g' Hs Hh Hs').
  - unfold handle in Hh. destruct (scheduled g) as [|n] eqn:En; [discriminate Hh | ].
    injection Hh as Hh. rewrite at_time_runs in Hh.
    apply (loop_returns (set_scheduled n (set_date_now now g)) g') in Hh.
    destruct Hh as [[_ Hp] | [Hn _]]; [ | contradiction].
    unfold pacing in Hp. injection Hp as Hp _. exact Hp.
Qed.

Lemma pending_ticks_count_the_resizes_witness :
  scheduled Sample.resized = S (scheduled Sample.playing).
Proof.
  apply (pending_ticks_count_the_resizes (Resize 1100 400 300) Sample.playing Sample.resized).
  - reflexivity.
  - vm_compute. reflexivity.
  - reflexivity.
Defined.

(** ** [Game.start] *)

Lemma start_runs (g g1 : Game) :
  reset g = Ok tt g1 ->
  start g
  = _loop (set_currentState PLAYING
             (set_effects (Clear :: Play "swooshingSound" :: effects g1)
                (set_lastUpdate (Some (date_now g1)) g1))).
Proof.
  intros Hr. unfold start. run_with Hr. reflexivity.
Qed.

Lemma loop_at_most_one (g g' : Game) :
  after (_loop g) = Some g' ->
  _score g' = _score g \/ _score g' = option_map Z.succ (_score g).
Proof.
  rewrite loop_runs. intros H.
  pose proof (update_at_most_one (seconds_since (_lastUpdate g) (date_now g)) g) as K.
  destruct (_update _ g) as [[] g1 | e g1 |]; [ | | discriminate H].
  - specialize (K g1 eq_refl).
    destruct (State_eqb (_currentState g1) PLAYING); [destruct (_scene g1) | ];
      inversion H; subst g'; exact K.
  - inversion H; subst g'. apply K. reflexivity.
Qed.

Lemma start_returns_after_reset (g g' : Game) :
  start g = Ok tt g' -> exists g1, reset g = Ok tt g1.
Proof.
  unfold start. intros Hs. apply bind_ok_inv in Hs. destruct Hs as (a & g1 & E & _).
  destruct a. exists g1. exact E.
Qed.

Lemma first_tick (g g' : Game) (now : Z) (n : nat) :
  _loop g = Ok tt g' ->
  _currentState g = PLAYING ->
  pacing g = (n, Some now) ->
  date_now g = now ->
  counters g = (Some 0%Z, Some 0%Z) ->
  _lastUpdate g' = Some now
  /\ ((_currentState g' = PLAYING /\ scheduled g' = S n)
      \/ (_currentState g' = GAME_OVER /\ scheduled g' = n))
  /\ (_score g' = Some 0%Z \/ _score g' = Some 1%Z)
  /\ _level g' = Some 0%Z.
Proof.
  intros Hl Hst Hp Hd Hc.
  pose proof (loop_stays_or_ends g g' (ok_after _ _ _ Hl)) as St.
  pose proof (loop_at_most_one g g' (ok_after _ _ _ Hl)) as Ct.
  pose proof (loop_leveled g g' (ok_after _ _ _ Hl)) as Lv.
  apply loop_returns in Hl. clear - Hl Hst Hp Hd Hc St Ct Lv.
  unfold counters in Hc. injection Hc as Hsc Hlv.
  unfold stays_or_ends in St. unfold keeps_leveled, leveled in Lv.
  rewrite Hsc in Ct. rewrite Hsc, Hlv in Lv. rewrite Hst in St.
  rewrite Hp, Hd in Hl. unfold pacing in Hl, Hp. injection Hp as Hn _.
  rewrite Hn in Hl. cbn [option_map] in Ct. change (Z.succ 0) with 1%Z in Ct.
  assert (L0 : (10 * 0 <= 0 < 10 * (0 + 1))%Z) by lia.
  specialize (Lv L0). clear L0.
  split; [destruct Hl as [[_ Hl] | [_ Hl]]; injection Hl as _ Hl; exact Hl | ].
  split.
  { destruct Hl as [[Hs Hl] | [Hs Hl]]; injection Hl as Hl _.
    - left. split; assumption.
    - right. split; [ | exact Hl]. destruct St as [St | St]; [contradiction | exact St]. }
  split; [exact Ct | ].
  destruct (_level g') as [l|].
  - destruct Ct as [Ct | Ct]; rewrite Ct in Lv; cbv beta iota in Lv; f_equal; lia.
  - destruct Ct as [Ct | Ct]; rewrite Ct in Lv; cbv beta iota in Lv; contradiction Lv.
Qed.

(** X13: A [start()] that returns has run the first tick of the new session
    at once: the game is [PLAYING] with one more tick pending, or the
    first tick has ended it already and none was requested; either way
    the time of the last update is the time of the start, the score is 0,
    or 1 when that tick has scored, and the level is 0. *)
Theorem start_runs_the_first_tick :
  forall (g g' : Game),
    start g = Ok tt g' ->
    _lastUpdate g' = Some (date_now g)
    /\ ((_currentState g' = PLAYING /\ scheduled g' = S (scheduled g))
        \/ (_currentState g' = GAME_OVER /\ scheduled g' = scheduled g))
    /\ (_score g' = Some 0%Z \/ _score g' = Some 1%Z)
    /\ _level g' = Some 0%Z.
Proof.
  intros g g' Hs. destruct (start_returns_after_reset g g' Hs) as [g1 Er].
  rewrite (start_runs g g1 Er) in Hs.
  destruct (reset_returns_restarted g g1 Er) as (xs & _ & Hg1).
  apply (first_tick _ g' (date_now g) (scheduled g) Hs);
    rewrite Hg1; reflexivity.
Qed.

Lemma start_runs_the_first_tick_witness :
  _lastUpdate Sample.playing = Some 1000%Z
  /\ ((_currentState Sample.playing = PLAYING
       /\ scheduled Sample.playing = S (scheduled Sample.idle))
      \/ (_currentState Sample.playing = GAME_OVER
          /\ scheduled Sample.playing = scheduled Sample.idle))
  /\ (_score Sample.playing = Some 0%Z \/ _score Sample.playing = Some 1%Z)
  /\ _level Sample.playing = Some 0%Z.
Proof.
  apply (start_runs_the_first_tick (set_date_now 1000 Sample.idle) Sample.playing).
  vm_compute. reflexivity.
Defined.

(** ** [Bird.update]: what it leaves alone *)

(** X14: [Bird.update(delta)] changes the bird and nothing else in the heap:
    the bird is the one that the inherited update and the physics engine
    leave, with [y] replaced by 0 when it is negative; the clamp touches
    no other field, so a bird held at the ceiling keeps its upward
    speed.  Score, level, high score, storage, the pending ticks, the
    scene, the tube driver are what they were, also when the update ends
    the game. *)
Theorem Bird_update_changes_the_bird_only :
  forall (g : Game) (this : nat) (e : Entity) (sc : Scene) (gravity delta : Q),
    nth_error (heap g) this = Some e ->
    _scene g = Some sc ->
    _physicsEngine g = Some gravity ->
    let p := integrate gravity delta (animate (bird_animationSpeed (_config g)) delta e) in
    exists (g' : Game),
      Bird_update this delta g = Ok tt g'
      /\ nth_error (heap g') this = Some (if Qltb (y p) 0 then set_y 0 p else p)
      /\ (forall j, j <> this -> nth_error (heap g') j = nth_error (heap g) j)
      /\ counters g' = counters g
      /\ persisted g' = persisted g
      /\ pacing g' = pacing g
      /\ _scene g' = _scene g
      /\ _tubesDriver g' = _tubesDriver g.
Proof.
  intros g this e sc gravity delta He Hsc Hph p.
  destruct (Bird_update_runs g this e sc gravity delta He Hsc Hph) as [Hn Hrun].
  eexists. split; [exact Hrun | ].
  assert (Hj : forall j, j <> this ->
            nth_error (list_update this (moved (_config g) gravity delta) (heap g)) j
            = nth_error (heap g) j).
  { intros j Hne. rewrite nth_error_list_update.
    destruct (Nat.eqb j this) eqn:E; [ | reflexivity].
    apply Nat.eqb_eq in E. contradiction. }
  cbn [heap set_heap] in Hn.
  destruct (Qgeb _ _); unfold ended;
    cbn [heap set_heap set_effects set_currentState counters persisted pacing
         _score _level _highScore _storage effects scheduled _lastUpdate _scene
         _tubesDriver saves filter];
    (split; [exact Hn | ]); (split; [exact Hj | ]);
    repeat split; reflexivity.
Qed.

Lemma Bird_update_changes_the_bird_only_witness :
  let p := integrate 1000 (1 # 60)
             (animate (bird_animationSpeed (_config Sample.playing)) (1 # 60)
                (Sample.bird Sample.playing)) in
  exists (g' : Game),
    Bird_update 13 (1 # 60) Sample.playing = Ok tt g'
    /\ nth_error (heap g') 13 = Some (if Qltb (y p) 0 then set_y 0 p else p)
    /\ (forall j, j <> 13%nat -> nth_error (heap g') j = nth_error (heap Sample.playing) j)
    /\ counters g' = counters Sample.playing
    /\ persisted g' = persisted Sample.playing
    /\ pacing g' = pacing Sample.playing
    /\ _scene g' = _scene Sample.playing
    /\ _tubesDriver g' = _tubesDriver Sample.playing.
Proof.
  apply (Bird_update_changes_the_bird_only Sample.playing 13
           (Sample.bird Sample.playing)
           (mkScene 400 300 [7; 8; 9; 10; 11; 12; 13; 14]%nat) 1000 (1 # 60));
    vm_compute; reflexivity.
Defined.

(** ** [Game._updateScore]: the scoring window *)





(** ** [Game._handleAction]: the dispatch on the state *)

Lemma start_resets_and_plays (g : Game) :
  forall g1,
    reset g = Ok tt g1 ->
    _score g1 = Some 0%Z /\ _level g1 = Some 0%Z
    /\ start g
       = _loop (set_currentState PLAYING
                  (set_effects (Clear :: Play "swooshingSound" :: effects g1)
                     (set_lastUpdate (Some (date_now g1)) g1)))
    /\ forall g',
         start g = Ok tt g' ->
         _lastUpdate g' = Some (date_now g)
         /\ ((_currentState g' = PLAYING /\ scheduled g' = S (scheduled g))
             \/ (_currentState g' = GAME_OVER /\ scheduled g' = scheduled g)).
Proof.
  intros g1 Er. destruct (reset_returns_restarted g g1 Er) as (xs & _ & Hg1).
  split; [rewrite Hg1; reflexivity | ]. split; [rewrite Hg1; reflexivity | ].
  split; [apply (start_runs g g1 Er) | ].
  intros g' Hs. rewrite (start_runs g g1 Er) in Hs.
  assert (F : _lastUpdate g' = Some (date_now g)
              /\ ((_currentState g' = PLAYING /\ scheduled g' = S (scheduled g))
                  \/ (_currentState g' = GAME_OVER /\ scheduled g' = scheduled g))
              /\ (_score g' = Some 0%Z \/ _score g' = Some 1%Z)
              /\ _level g' = Some 0%Z).
  { apply (first_tick _ g' (date_now g) (scheduled g) Hs); rewrite Hg1; reflexivity. }
  destruct F as (F1 & F2 & _). split; assumption.
Qed.

(** C1: the table of [_handleAction] has an entry for each of the four
    states, and the primary action does this.  In [LOADING]: nothing, the
    game is left as it is.  In [IDLE] and in [GAME_OVER]: [start()]; when
    its [reset()] returns, score and level are 0, the swooshing sound is
    played, the time is noted, the state becomes [PLAYING] and the first
    tick runs, after which the game is [PLAYING] with the next tick
    requested, unless that tick has ended it.  In [PLAYING]:
    [this._bird.flap()], which plays the flap sound and replaces the
    bird's falling speed by [-flapSpeed] in the heap, an impulse upwards;
    without a bird it throws. *)
Theorem handleAction_dispatches_on_state :
  forall (g : Game),
    (forall s, exists action, lookup_state s actionByStateMap = Some action)
    /\ match _currentState g with
       | LOADING => _handleAction g = Ok tt g
       | IDLE | GAME_OVER =>
           _handleAction g = start g
           /\ forall g1,
                reset g = Ok tt g1 ->
                _score g1 = Some 0%Z /\ _level g1 = Some 0%Z
                /\ _handleAction g
                   = _loop (set_currentState PLAYING
                              (set_effects (Clear :: Play "swooshingSound" :: effects g1)
                                 (set_lastUpdate (Some (date_now g1)) g1)))
                /\ forall g',
                     _handleAction g = Ok tt g' ->
                     _lastUpdate g' = Some (date_now g)
                     /\ ((_currentState g' = PLAYING /\ scheduled g' = S (scheduled g))
                         \/ (_currentState g' = GAME_OVER
                             /\ scheduled g' = scheduled g))
       | PLAYING =>
           match _bird g with
           | Some b =>
               _handleAction g
               = Ok tt (set_effects (Play "flapSound" :: effects g)
                          (set_heap (list_update b flap (heap g)) g))
               /\ forall x0 y0 w h s z c v f fl t,
                    nth_error (heap g) b
                    = Some (mkEntity x0 y0 w h s z c (BirdX v f fl t)) ->
                    nth_error (list_update b flap (heap g)) b
                    = Some (mkEntity x0 y0 w h s z c (BirdX (- f) f fl t))
           | None => _handleAction g = Throw TypeError g
           end
       end.
Proof.
  intros g. split.
  { intros s. destruct s; eexists; reflexivity. }
  rewrite handleAction_runs. destruct (_currentState g) eqn:Es.
  - reflexivity.
  - split; [reflexivity | ]. apply start_resets_and_plays.
  - unfold flapBird, bind, get. destruct (_bird g) as [b|]; [ | reflexivity].
    split; [reflexivity | ].
    intros x0 y0 w h s z c v f fl t He.
    rewrite (nth_error_list_update_same flap _ _ _ He). reflexivity.
  - split; [reflexivity | ]. apply start_resets_and_plays.
Qed.

Lemma handleAction_dispatches_on_state_witness :
  (_handleAction Sample.playing
   = Ok tt (set_effects (Play "flapSound" :: effects Sample.playing)
              (set_heap (list_update 13 flap (heap Sample.playing)) Sample.playing))
   /\ nth_error (list_update 13 flap (heap Sample.playing)) 13
      = Some (mkEntity 100 (560000000 # 4000000) 30 20 0 2 true
                (BirdX (- (300)) 300 true (0 # 1000))))
  /\ (_lastUpdate Sample.playing = Some 1000%Z
      /\ ((_currentState Sample.playing = PLAYING
           /\ scheduled Sample.playing = S (scheduled Sample.idle))
          \/ (_currentState Sample.playing = GAME_OVER
              /\ scheduled Sample.playing = scheduled Sample.idle))).
Proof.
  split.
  - assert (W := proj2 (handleAction_dispatches_on_state Sample.playing)).
    hnf in W. destruct W as [W1 W2]. split; [exact W1 | ].
    apply (W2 100 (560000000 # 4000000) 30 20 0 2%Z true (0 # 1000) 300 true (0 # 1000)).
    reflexivity.
  - assert (W := proj2 (handleAction_dispatches_on_state (set_date_now 1000 Sample.idle))).
    hnf in W. destruct W as [_ W].
    destruct (W (match reset (set_date_now 1000 Sample.idle) with
                 | Ok _ g => g
                 | _ => Sample.idle
                 end)) as (_ & _ & _ & W3); [vm_compute; reflexivity | ].
    apply (W3 Sample.playing). vm_compute. reflexivity.
Defined.
